(** * optional-neo: the Optional container, its constructors and combinators

    A shallow embedding of [optional.ts].  The library is JavaScript at run
    time: Optionals are objects with identity, [group] mutates a record it
    shares across a fold, [filter] hands back [this], and callbacks may have
    effects or throw.  The embedding therefore threads a heap of objects and
    an exception outcome through every operation.

    Objects are ordinary objects: a prototype, a callable flag, own
    enumerable string-keyed data properties and the names of the own
    properties that refuse assignment.  Symbol keys, accessors whose setter
    runs code of the caller, and proxies are outside the model, and so is
    running a function held by an object that is not an instance of the two
    classes.  Callbacks are functions of the embedding, free to change the
    heap and to throw. *)

From Stdlib Require Import ZArith String Bool Lia.
From stdpp Require Import base list strings pretty.

Local Open Scope string_scope.
Local Open Scope list_scope.

(** ** Values *)

Abbreviation loc := nat (only parsing).

(** The values of the host language.  Numbers are the integer-valued ones
    plus NaN, the one number that [===] does not relate to itself. *)
Inductive val : Type :=
| VUndefined
| VNull
| VBool (b : bool)
| VNumber (n : Z)
| VNaN
| VBigInt (n : Z)
| VString (s : string)
| VSymbol (id : nat)
| VObject (l : loc).

(** [a === b] *)
Definition strict_equals (a b : val) : bool :=
  match a, b with
  | VUndefined, VUndefined => true
  | VNull, VNull => true
  | VBool x, VBool y => Bool.eqb x y
  | VNumber x, VNumber y => Z.eqb x y
  | VBigInt x, VBigInt y => Z.eqb x y
  | VString x, VString y => String.eqb x y
  | VSymbol x, VSymbol y => Nat.eqb x y
  | VObject x, VObject y => Nat.eqb x y
  | _, _ => false
  end.

(** The truthiness test of [c ? a : b]. *)
Definition to_boolean (v : val) : bool :=
  match v with
  | VUndefined | VNull | VNaN => false
  | VBool b => b
  | VNumber n | VBigInt n => negb (Z.eqb n 0)
  | VString s => negb (String.eqb s "")
  | VSymbol _ | VObject _ => true
  end.

(** ** Objects and the heap *)

(** The built-in prototype objects the library's objects inherit from.
    [EmptyPrototype] and [SomePrototype] are [Empty.prototype] and
    [Some.prototype], which carry the methods of the two classes. *)
Inductive builtin : Type :=
| ObjectPrototype
| FunctionPrototype
| EmptyPrototype
| SomePrototype.

Inductive proto : Type :=
| ProtoNull
| ProtoBuiltin (b : builtin)
| ProtoRef (l : loc).

(** An object: its [[Prototype]], whether it is callable, its own
    enumerable string-keyed data properties in property order, and the names
    of its own properties that refuse assignment: data properties that are
    not writable and accessors without a setter or with one that throws a
    TypeError.  A function as it is created has ["length"] and ["name"]
    among them, a class also ["prototype"], a frozen object all its keys. *)
Record object : Type := mkObjectWith {
  obj_proto : proto;
  obj_callable : bool;
  obj_props : list (string * val);
  obj_locked : list string
}.

(** An object all of whose own properties are writable. *)
Abbreviation mkObject p c ps := (mkObjectWith p c ps []).

Abbreviation heap := (list object) (only parsing).

(** [new Empty()] and [new Some(value)] as they sit in the heap. *)
Definition Empty_instance : object :=
  mkObject (ProtoBuiltin EmptyPrototype) false [].

Definition Some_instance (value : val) : object :=
  mkObject (ProtoBuiltin SomePrototype) false [("value", value)].

(** The object literal [{}] and the literal [{ [key]: val }]: a computed
    key always defines an own data property. *)
Definition empty_literal : object :=
  mkObject (ProtoBuiltin ObjectPrototype) false [].

Definition computed_literal (key : string) (value : val) : object :=
  mkObject (ProtoBuiltin ObjectPrototype) false [(key, value)].

Definition is_Some (h : heap) (l : loc) (v : val) : Prop :=
  h !! l = Some (Some_instance v).

Definition is_Empty (h : heap) (l : loc) : Prop :=
  h !! l = Some Empty_instance.

(** An Optional of one of the two classes. *)
Definition is_Optional (h : heap) (o : val) : Prop :=
  exists l, o = VObject l /\ (is_Empty h l \/ exists v, is_Some h l v).

(** ** Own properties *)

Fixpoint lookup_prop (key : string) (ps : list (string * val)) : option val :=
  match ps with
  | [] => None
  | (k, v) :: ps' => if String.eqb k key then Some v else lookup_prop key ps'
  end.

(** Overwrite an existing own property in place, or append a new one. *)
Fixpoint set_prop (key : string) (v : val) (ps : list (string * val))
  : list (string * val) :=
  match ps with
  | [] => [(key, v)]
  | (k, w) :: ps' =>
      if String.eqb k key then (k, v) :: ps' else (k, w) :: set_prop key v ps'
  end.

Definition with_props (o : object) (ps : list (string * val)) : object :=
  mkObjectWith (obj_proto o) (obj_callable o) ps (obj_locked o).

Definition with_proto (o : object) (p : proto) : object :=
  mkObjectWith p (obj_callable o) (obj_props o) (obj_locked o).

(** ** Built-in prototypes *)

(** The methods both classes define (the members of [interface Optional]). *)
Definition class_methods : list string :=
  [ "isPresent"; "isEmpty"; "map"; "chain"; "filter"; "getOrNull";
    "getOrUndefined"; "getOrElse"; "isEqual"; "ifPresent"; "ifAbsent";
    "backUp" ].

Definition object_prototype_members : list string :=
  [ "constructor"; "__defineGetter__"; "__defineSetter__"; "hasOwnProperty";
    "__lookupGetter__"; "__lookupSetter__"; "isPrototypeOf";
    "propertyIsEnumerable"; "toString"; "valueOf"; "__proto__";
    "toLocaleString" ].

Definition function_prototype_members : list string :=
  [ "length"; "name"; "arguments"; "caller"; "constructor"; "apply"; "bind";
    "call"; "toString" ].

(** The members of [Function.prototype] that refuse assignment: ["length"]
    and ["name"] are not writable, ["arguments"] and ["caller"] are
    accessors whose setter throws a TypeError. *)
Definition function_prototype_locked : list string :=
  [ "length"; "name"; "arguments"; "caller" ].

Definition mem_string (s : string) (l : list string) : bool :=
  existsb (String.eqb s) l.

Definition builtin_own (b : builtin) (key : string) : bool :=
  match b with
  | ObjectPrototype => mem_string key object_prototype_members
  | FunctionPrototype => mem_string key function_prototype_members
  | EmptyPrototype | SomePrototype => mem_string key ("constructor" :: class_methods)
  end.

(** Which built-in prototype holds [key], starting the search at [b]; every
    built-in prototype other than [Object.prototype] inherits from it. *)
Definition builtin_member (b : builtin) (key : string) : option builtin :=
  if builtin_own b key then Some b
  else if builtin_own ObjectPrototype key then Some ObjectPrototype
  else None.

(** ** Property resolution along the prototype chain *)

Inductive holder : Type :=
| OwnData (l : loc) (v : val)   (* a data property of the heap object [l] *)
| OwnLocked (l : loc)           (* a property of [l] known by name only *)
| BuiltinMember (b : builtin)   (* a member of a built-in prototype *)
| Missing.

(** Prototype chains are finite and acyclic in the host.  [fuel] bounds the
    number of links followed; the operations below pass the size of the
    heap, which is enough ([heap_size_is_enough]). *)
Fixpoint resolve (h : heap) (fuel : nat) (l : loc) (key : string) : holder :=
  match h !! l with
  | None => Missing
  | Some o =>
      match lookup_prop key (obj_props o) with
      | Some v => OwnData l v
      | None =>
          if mem_string key (obj_locked o) then OwnLocked l
          else
            match obj_proto o with
            | ProtoNull => Missing
            | ProtoBuiltin b =>
                match builtin_member b key with
                | Some b' => BuiltinMember b'
                | None => Missing
                end
            | ProtoRef l' =>
                match fuel with
                | O => Missing
                | S fuel' => resolve h fuel' l' key
                end
            end
      end
  end.

(** [key in object] for an object value. *)
Definition has_property (h : heap) (l : loc) (key : string) : bool :=
  match resolve h (length h) l key with
  | Missing => false
  | _ => true
  end.

(** [typeof v] *)
Definition typeof (h : heap) (v : val) : string :=
  match v with
  | VUndefined => "undefined"
  | VNull => "object"
  | VBool _ => "boolean"
  | VNumber _ | VNaN => "number"
  | VBigInt _ => "bigint"
  | VString _ => "string"
  | VSymbol _ => "symbol"
  | VObject l =>
      match h !! l with
      | Some o => if obj_callable o then "function" else "object"
      | None => "object"
      end
  end.

(** ** Computations: a heap and an outcome *)

(** [TypeError] is what the runtime raises inside library code (calling a
    member that is not a function, reading a property of [null]);
    [Thrown v] is a [throw v] executed by caller code. *)
Inductive exn : Type :=
| TypeError
| Thrown (v : val).

Inductive outcome (A : Type) : Type :=
| Return (a : A)
| Throw (e : exn).
Arguments Return {A} a.
Arguments Throw {A} e.

Definition M (A : Type) : Type := heap -> outcome A * heap.

Definition ret {A} (a : A) : M A := fun h => (Return a, h).
Definition throw {A} (e : exn) : M A := fun h => (Throw e, h).
Definition bind {A B} (m : M A) (k : A -> M B) : M B :=
  fun h =>
    match m h with
    | (Return a, h') => k a h'
    | (Throw e, h') => (Throw e, h')
    end.

Notation "'let!' x ':=' m 'in' k" := (bind m (fun x => k))
  (at level 10, x name, m at level 100, k at level 200).
Notation "'do!' m 'in' k" := (bind m (fun _ => k))
  (at level 10, m at level 100, k at level 200).

(** [new C(...)]: the object gets the next unused location. *)
Definition alloc (o : object) : M val :=
  fun h => (Return (VObject (length h)), h ++ [o]).

(** A caller-supplied function of one argument, and of two. *)
Definition callback := val -> M val.
Definition comparator := val -> val -> M val.

(** ** Host operations the library relies on *)

(** The index keys of a string primitive, ["0"], ["1"], ... *)
Definition string_index_keys (s : string) : list string :=
  map (fun i : nat => pretty i) (seq 0 (String.length s)).

Definition string_index (s key : string) : val :=
  match find (fun i : nat => String.eqb (pretty i) key) (seq 0 (String.length s)) with
  | Some i =>
      match String.get i s with
      | Some c => VString (String c EmptyString)
      | None => VUndefined
      end
  | None => VUndefined
  end.

(** [o[key]] and [o.key].  Reading a member of [null] or [undefined] is a
    TypeError.  Members of built-in prototypes are function objects, which
    are not values of this model, and a property known by name only has no
    value here: the library reads only [this.value] and [partial[key]] for
    an own enumerable key, and neither resolves to one of those. *)
Definition get (o : val) (key : string) : M val :=
  fun h =>
    match o with
    | VUndefined | VNull => (Throw TypeError, h)
    | VObject l =>
        match resolve h (length h) l key with
        | OwnData _ v => (Return v, h)
        | _ => (Return VUndefined, h)
        end
    | VString s => (Return (string_index s key), h)
    | _ => (Return VUndefined, h)
    end.

(** [Object.keys(o)]: the own enumerable string keys, in property order. *)
Definition Object_keys (o : val) : M (list string) :=
  fun h =>
    match o with
    | VUndefined | VNull => (Throw TypeError, h)
    | VObject l =>
        match h !! l with
        | Some obj => (Return (map fst (obj_props obj)), h)
        | None => (Return [], h)
        end
    | VString s => (Return (string_index_keys s), h)
    | _ => (Return [], h)
    end.

(** Is [target] on the prototype chain that starts at [l]? *)
Fixpoint on_proto_chain (h : heap) (fuel : nat) (l target : loc) : bool :=
  if Nat.eqb l target then true
  else
    match h !! l with
    | Some o =>
        match obj_proto o with
        | ProtoRef l' =>
            match fuel with
            | O => false
            | S fuel' => on_proto_chain h fuel' l' target
            end
        | _ => false
        end
    | None => false
    end.

Definition store (l : loc) (o : object) : M unit :=
  fun h => (Return tt, <[l := o]> h).

(** The setter of the accessor [Object.prototype.__proto__], called with
    receiver [target]: an object or [null] becomes the receiver's prototype
    (a TypeError if that would close a cycle), any other value is ignored. *)
Definition proto_setter (target : loc) (v : val) : M unit :=
  fun h =>
    match h !! target with
    | None => (Return tt, h)
    | Some o =>
        match v with
        | VNull => store target (with_proto o ProtoNull) h
        | VObject l =>
            match obj_proto o with
            | ProtoRef l0 =>
                if Nat.eqb l0 l then (Return tt, h)
                else if on_proto_chain h (length h) l target then (Throw TypeError, h)
                else store target (with_proto o (ProtoRef l)) h
            | _ =>
                if on_proto_chain h (length h) l target then (Throw TypeError, h)
                else store target (with_proto o (ProtoRef l)) h
            end
        | _ => (Return tt, h)
        end
    end.

(** Does the own property [key] of the object at [l] refuse assignment? *)
Definition locked_at (h : heap) (l : loc) (key : string) : bool :=
  match h !! l with
  | Some o => mem_string key (obj_locked o)
  | None => false
  end.

(** [target[key] = v] as [Object.assign] performs it: the [[Set]] of an
    ordinary, extensible object, with a TypeError where it fails.  The
    property is looked up along the prototype chain.  A writable data
    property, found on the target itself, is overwritten; found on an
    ancestor, or not found at all, it is added to the target after the
    existing ones.  A property that refuses assignment, on the target or on
    any ancestor, makes the assignment fail.  The key [__proto__], inherited
    from [Object.prototype], runs the setter of that accessor. *)
Definition object_Set (target : loc) (key : string) (v : val) : M unit :=
  fun h =>
    match h !! target with
    | None => (Return tt, h)
    | Some o =>
        match resolve h (length h) target key with
        | OwnData l _ =>
            if locked_at h l key then (Throw TypeError, h)
            else store target (with_props o (set_prop key v (obj_props o))) h
        | OwnLocked _ => (Throw TypeError, h)
        | BuiltinMember ObjectPrototype =>
            if String.eqb key "__proto__" then proto_setter target v h
            else store target (with_props o (set_prop key v (obj_props o))) h
        | BuiltinMember FunctionPrototype =>
            if mem_string key function_prototype_locked then (Throw TypeError, h)
            else store target (with_props o (set_prop key v (obj_props o))) h
        | BuiltinMember _ | Missing =>
            store target (with_props o (set_prop key v (obj_props o))) h
        end
    end.

Fixpoint assign_keys (target source : loc) (keys : list string) : M unit :=
  match keys with
  | [] => ret tt
  | key :: rest =>
      fun h =>
        match h !! source with
        | Some o =>
            match lookup_prop key (obj_props o) with
            | Some v => (do! object_Set target key v in assign_keys target source rest) h
            | None => assign_keys target source rest h
            end
        | None => assign_keys target source rest h
        end
  end.

(** [Object.assign(target, source)] for object arguments; it returns
    [target], and a failed assignment is a TypeError.  A [null] or
    [undefined] target is a TypeError.  The library calls it with the
    accumulator's record as target and a fresh literal as source; primitive
    targets, which the host would box, do not arise and are rejected here as
    well. *)
Definition Object_assign (target source : val) : M val :=
  match target with
  | VObject t =>
      match source with
      | VObject s =>
          let! keys := Object_keys source in
          do! assign_keys t s keys in
          ret target
      | _ => ret target
      end
  | _ => throw TypeError
  end.

(** [Array.prototype.reduce] with an initial value, over an array of keys. *)
Fixpoint reduce {A} (callbackfn : A -> string -> M A) (keys : list string)
    (initialValue : A) : M A :=
  match keys with
  | [] => ret initialValue
  | key :: rest =>
      let! acc := callbackfn initialValue key in
      reduce callbackfn rest acc
  end.

(** ** Method calls *)

Inductive class : Type := ClassEmpty | ClassSome.

(** The method a call [o.name(...)] runs: the member is looked up along the
    prototype chain of [o].  A member held by the object itself or by a
    foreign object is not one of the two classes' methods; calling such
    foreign code is outside the model and reported like a missing member. *)
Definition method_of (h : heap) (o : val) (name : string) : option (class * loc) :=
  match o with
  | VObject l =>
      match resolve h (length h) l name with
      | BuiltinMember EmptyPrototype => Some (ClassEmpty, l)
      | BuiltinMember SomePrototype => Some (ClassSome, l)
      | _ => None
      end
  | _ => None
  end.

Definition dispatch {A} (o : val) (name : string)
    (onEmpty onSome : loc -> M A) : M A :=
  fun h =>
    match method_of h o name with
    | Some (ClassEmpty, this) => onEmpty this h
    | Some (ClassSome, this) => onSome this h
    | None => (Throw TypeError, h)
    end.

(** ** class Empty *)

Definition Empty_isPresent (this : loc) : M val := ret (VBool false).

Definition Empty_isEmpty (this : loc) : M val := ret (VBool true).

Definition Empty_map (this : loc) (func : callback) : M val :=
  ret (VObject this).

Definition Empty_chain (this : loc) (func : callback) : M val :=
  ret (VObject this).

Definition Empty_filter (this : loc) (func : callback) : M val :=
  ret (VObject this).

Definition Empty_getOrNull (this : loc) : M val := ret VNull.

Definition Empty_getOrUndefined (this : loc) : M val := ret VUndefined.

Definition Empty_getOrElse (this : loc) (defaultValue : val) : M val :=
  ret defaultValue.

Definition Empty_ifPresent (this : loc) (func : callback) : M val :=
  ret VUndefined.

Definition Empty_ifAbsent (this : loc) (func : M val) : M val :=
  do! func in ret VUndefined.

Definition Empty_backUp (this : loc) (another : val) : M val :=
  ret another.

(** ** class Some *)

Definition Some_isPresent (this : loc) : M val := ret (VBool true).

Definition Some_isEmpty (this : loc) : M val := ret (VBool false).

Definition Some_map (this : loc) (func : callback) : M val :=
  let! v := get (VObject this) "value" in
  let! r := func v in
  alloc (Some_instance r).

Definition Some_filter (this : loc) (func : callback) : M val :=
  let! v := get (VObject this) "value" in
  let! keep := func v in
  if to_boolean keep then ret (VObject this) else alloc Empty_instance.

Definition Some_chain (this : loc) (func : callback) : M val :=
  let! v := get (VObject this) "value" in
  func v.

Definition Some_getOrNull (this : loc) : M val :=
  get (VObject this) "value".

Definition Some_getOrUndefined (this : loc) : M val :=
  get (VObject this) "value".

Definition Some_getOrElse (this : loc) (defaultValue : val) : M val :=
  get (VObject this) "value".

Definition Some_ifPresent (this : loc) (func : callback) : M val :=
  let! v := get (VObject this) "value" in
  do! func v in
  ret VUndefined.

Definition Some_ifAbsent (this : loc) (func : M val) : M val :=
  ret VUndefined.

Definition Some_backUp (this : loc) (another : val) : M val :=
  ret (VObject this).

(** ** Calls through the interface *)

Definition invoke_isPresent (o : val) : M val :=
  dispatch o "isPresent" Empty_isPresent Some_isPresent.

Definition invoke_isEmpty (o : val) : M val :=
  dispatch o "isEmpty" Empty_isEmpty Some_isEmpty.

Definition invoke_map (o : val) (func : callback) : M val :=
  dispatch o "map" (fun this => Empty_map this func) (fun this => Some_map this func).

Definition invoke_chain (o : val) (func : callback) : M val :=
  dispatch o "chain" (fun this => Empty_chain this func) (fun this => Some_chain this func).

Definition invoke_filter (o : val) (func : callback) : M val :=
  dispatch o "filter" (fun this => Empty_filter this func) (fun this => Some_filter this func).

Definition invoke_getOrNull (o : val) : M val :=
  dispatch o "getOrNull" Empty_getOrNull Some_getOrNull.

Definition invoke_getOrUndefined (o : val) : M val :=
  dispatch o "getOrUndefined" Empty_getOrUndefined Some_getOrUndefined.

Definition invoke_getOrElse (o : val) (defaultValue : val) : M val :=
  dispatch o "getOrElse" (fun this => Empty_getOrElse this defaultValue)
    (fun this => Some_getOrElse this defaultValue).

Definition invoke_ifPresent (o : val) (func : callback) : M val :=
  dispatch o "ifPresent" (fun this => Empty_ifPresent this func)
    (fun this => Some_ifPresent this func).

Definition invoke_ifAbsent (o : val) (func : M val) : M val :=
  dispatch o "ifAbsent" (fun this => Empty_ifAbsent this func)
    (fun this => Some_ifAbsent this func).

Definition invoke_backUp (o : val) (another : val) : M val :=
  dispatch o "backUp" (fun this => Empty_backUp this another)
    (fun this => Some_backUp this another).

(** [isEqual] calls back into the interface of [another]. *)
Definition Empty_isEqual (this : loc) (another : val)
    (compareFunc : option comparator) : M val :=
  invoke_isEmpty another.

Definition Some_isEqual (this : loc) (another : val)
    (compareFunc : option comparator) : M val :=
  let! mapped :=
    invoke_map another (fun anotherValue =>
      match compareFunc with
      | Some compare =>
          let! v := get (VObject this) "value" in
          compare v anotherValue
      | None =>
          let! v := get (VObject this) "value" in
          ret (VBool (strict_equals v anotherValue))
      end) in
  invoke_getOrElse mapped (VBool false).

Definition invoke_isEqual (o : val) (another : val)
    (compareFunc : option comparator) : M val :=
  dispatch o "isEqual" (fun this => Empty_isEqual this another compareFunc)
    (fun this => Some_isEqual this another compareFunc).

(** ** Constructors and combinators *)

(** [some(value)] is [new Some(value)]. *)
Definition some (value : val) : M val := alloc (Some_instance value).

Section Module.

(** [export const empty = new Empty()] runs once when the module is loaded;
    [empty] is the location that object received. *)
Variable empty : loc.

Definition fromNullable (value : val) : M val :=
  if strict_equals value VNull || strict_equals value VUndefined
  then ret (VObject empty)
  else some value.

Definition cleanOptional (value : val) : M val :=
  let! v := invoke_getOrUndefined value in
  fromNullable v.

Definition emptyFunction : M val := ret (VObject empty).

End Module.

Definition group (partial : val) : M val :=
  let! initial := alloc empty_literal in
  let! keys := Object_keys partial in
  let! start := some initial in
  reduce (fun acc key =>
      let! optionalValue := get partial key in
      invoke_chain acc (fun complete =>
        invoke_map optionalValue (fun value =>
          let! literal := alloc (computed_literal key value) in
          Object_assign complete literal)))
    keys start.

Definition optional_fields : list string :=
  [ "map"; "chain"; "filter"; "getOrNull"; "getOrUndefined"; "getOrElse";
    "isPresent"; "isEmpty"; "isEqual"; "ifAbsent"; "ifPresent"; "backUp" ].

(** The [for ... of] loop of [instanceOfOptional] with its early return. *)
Fixpoint all_fields_in (h : heap) (l : loc) (fields : list string) : bool :=
  match fields with
  | [] => true
  | field :: rest =>
      if negb (has_property h l field) then false else all_fields_in h l rest
  end.

Definition instanceOfOptional (object : val) : M val :=
  fun h =>
    if negb (String.eqb (typeof h object) "object") then (Return (VBool false), h)
    else if strict_equals object VNull || strict_equals object VUndefined
    then (Return (VBool false), h)
    else
      match object with
      | VObject l => (Return (VBool (all_fields_in h l optional_fields)), h)
      | _ => (Throw TypeError, h)   (* [in] applied to a primitive *)
      end.

(** * The vocabulary of the properties *)

(** ** Well-formed heaps, variants and mappings *)

(** No object refers to a location that is not allocated. *)
Definition heap_closed (h : heap) : Prop :=
  forall l o, h !! l = Some o ->
    (forall l', obj_proto o = ProtoRef l' -> l' < length h) /\
    (forall k l', In (k, VObject l') (obj_props o) -> l' < length h).

(** The two variants, as seen from outside. *)
Inductive variant : Type :=
| Present (v : val)
| Absent.

Definition has_variant (h : heap) (l : loc) (x : variant) : Prop :=
  match x with
  | Present v => is_Some h l v
  | Absent => is_Empty h l
  end.

(** A field of the mapping: its key, where its Optional lives, and the
    Optional's payload when it is Present. *)
Record field : Type := mkField {
  field_key : string;
  field_loc : loc;
  field_payload : option val
}.

Definition field_ok (h : heap) (f : field) : Prop :=
  match field_payload f with
  | Some v => is_Some h (field_loc f) v
  | None => is_Empty h (field_loc f)
  end.

Definition field_entry (f : field) : string * val :=
  (field_key f, VObject (field_loc f)).

(** The object at [pl] is a mapping from keys to Optionals with the given
    fields, in property order. *)
Definition is_mapping (h : heap) (pl : loc) (fields : list field) : Prop :=
  (exists po, h !! pl = Some po /\ obj_props po = map field_entry fields) /\
  NoDup (map field_key fields) /\
  Forall (field_ok h) fields.

(** The objects met from [l] along at most [fuel] prototype links. *)
Fixpoint proto_path (h : heap) (fuel : nat) (l : loc) : list loc :=
  match h !! l with
  | None => []
  | Some o =>
      l :: match obj_proto o with
           | ProtoRef l' =>
               match fuel with
               | O => []
               | S fuel' => proto_path h fuel' l'
               end
           | _ => []
           end
  end.

(** No prototype chain runs in a circle: the host refuses the assignment
    that would close one. *)
Definition acyclic (h : heap) : Prop :=
  forall fuel l, NoDup (proto_path h fuel l).

(** ** isEqual and chains of transformations *)

(** The comparison [Some.isEqual] hands to [another.map], for a receiver
    that holds [v]. *)
Definition compare_with (v : val) (compareFunc : option comparator) : callback :=
  fun anotherValue =>
    match compareFunc with
    | Some compare => compare v anotherValue
    | None => ret (VBool (strict_equals v anotherValue))
    end.

(** One link of a chain [o.map(f)], [o.chain(f)] or [o.filter(f)]. *)
Inductive transform : Type :=
| Tmap (func : callback)
| Tchain (func : callback)
| Tfilter (func : callback).

Definition apply_transform (o : val) (t : transform) : M val :=
  match t with
  | Tmap func => invoke_map o func
  | Tchain func => invoke_chain o func
  | Tfilter func => invoke_filter o func
  end.

(** [o.t1(f1).t2(f2)...] *)
Fixpoint apply_transforms (o : val) (ts : list transform) : M val :=
  match ts with
  | [] => ret o
  | t :: rest =>
      let! o' := apply_transform o t in
      apply_transforms o' rest
  end.

(** ** Members *)

(** [object] exposes [field] as a member: [field in object] holds. *)
Definition exposes (h : heap) (object : val) (field : string) : Prop :=
  exists l, object = VObject l /\ has_property h l field = true.

(** ** The fold of group *)

(** The callback [group] folds with. *)
Definition group_step (partial : val) (acc : val) (key : string) : M val :=
  let! optionalValue := get partial key in
  invoke_chain acc (fun complete =>
    invoke_map optionalValue (fun value =>
      let! literal := alloc (computed_literal key value) in
      Object_assign complete literal)).

(** The fields before the first Absent one, unwrapped. *)
Fixpoint present_prefix (fields : list field) : list (string * val) :=
  match fields with
  | [] => []
  | f :: rest =>
      match field_payload f with
      | Some v => (field_key f, v) :: present_prefix rest
      | None => []
      end
  end.

(** Where the first Absent field's Optional lives, if a field is Absent. *)
Fixpoint first_absent (fields : list field) : option loc :=
  match fields with
  | [] => None
  | f :: rest =>
      match field_payload f with
      | Some _ => first_absent rest
      | None => Some (field_loc f)
      end
  end.

(** All fields unwrapped, when all are Present. *)
Definition unwrapped (fields : list field) : list (string * val) :=
  omap (fun f => match field_payload f with
                 | Some v => Some (field_key f, v)
                 | None => None
                 end) fields.

(** What holds between two steps of the fold over a mapping with no key
    [__proto__] while the accumulator is Present: the objects that existed
    before the call are untouched, the accumulator wraps the record
    allocated first, and the record, still an heir of [Object.prototype],
    holds what was assigned so far. *)
Record group_inv (h0 h : heap) (a : loc) (done : list (string * val)) : Prop := {
  inv_old : forall l, l < length h0 -> h !! l = h0 !! l;
  inv_acc : is_Some h a (VObject (length h0));
  inv_record :
    h !! length h0 = Some (mkObject (ProtoBuiltin ObjectPrototype) false done)
}.

(** The record [rec] is the payload of the Present [res]. *)
Definition returned (h : heap) (res : val) (rec : loc) : Prop :=
  exists a, res = VObject a /\ is_Some h a (VObject rec).

(** The record [rec] has [key] bound to [v] as an own property. *)
Definition assigned_onto (h : heap) (rec : loc) (key : string) (v : val) : Prop :=
  exists o, h !! rec = Some o /\ lookup_prop key (obj_props o) = Some v.

(** The claim as the specification words it: whatever was assigned onto
    the record [group] allocates, that record is the one returned. *)
Definition assigns_only_onto_returned (h : heap) (partial : val) : Prop :=
  forall res hfin, group partial h = (Return res, hfin) ->
    forall key v, assigned_onto hfin (length h) key v -> returned hfin res (length h).

(** ** Calls and their outcomes *)

(** A call of one of the twelve instance operations, with its arguments. *)
Inductive call : Type :=
| CallIsPresent
| CallIsEmpty
| CallMap (func : callback)
| CallChain (func : callback)
| CallFilter (func : callback)
| CallGetOrNull
| CallGetOrUndefined
| CallGetOrElse (defaultValue : val)
| CallIsEqual (another : val) (compareFunc : option comparator)
| CallIfPresent (func : callback)
| CallIfAbsent (func : M val)
| CallBackUp (another : val).

Definition invoke (o : val) (c : call) : M val :=
  match c with
  | CallIsPresent => invoke_isPresent o
  | CallIsEmpty => invoke_isEmpty o
  | CallMap func => invoke_map o func
  | CallChain func => invoke_chain o func
  | CallFilter func => invoke_filter o func
  | CallGetOrNull => invoke_getOrNull o
  | CallGetOrUndefined => invoke_getOrUndefined o
  | CallGetOrElse defaultValue => invoke_getOrElse o defaultValue
  | CallIsEqual another compareFunc => invoke_isEqual o another compareFunc
  | CallIfPresent func => invoke_ifPresent o func
  | CallIfAbsent func => invoke_ifAbsent o func
  | CallBackUp another => invoke_backUp o another
  end.

(** The one run of caller code a call makes, if it makes one: [x] is the
    receiver's variant and [y] the variant of [another] in [isEqual]. *)
Definition callback_run (h : heap) (x y : variant) (c : call)
  : option (outcome val * heap) :=
  match x, c with
  | Present v, CallMap func => Some (func v h)
  | Present v, CallChain func => Some (func v h)
  | Present v, CallFilter func => Some (func v h)
  | Present v, CallIfPresent func => Some (func v h)
  | Present v, CallIsEqual _ (Some compare) =>
      match y with
      | Present w => Some (compare v w h)
      | Absent => None
      end
  | Absent, CallIfAbsent func => Some (func h)
  | _, _ => None
  end.

(** The Optional arguments of a call are Optionals. *)
Definition call_ok (h : heap) (y : variant) (c : call) : Prop :=
  match c with
  | CallIsEqual another _ => exists b, another = VObject b /\ has_variant h b y
  | _ => True
  end.

(** The computation ends normally. *)
Definition returns {A} (m : M A) (h : heap) : Prop :=
  exists r h', m h = (Return r, h').

(** ** Worked heaps and callbacks *)

(** [empty] at location 0, [some(1)] and [some(2)], then the mappings
    [{a: some(1), b: some(2)}], [{a: some(1), b: empty}],
    [{["__proto__"]: some(1)}], [{}] and, at location 7, [some(some(2))]
    with the mapping [{["__proto__"]: some(some(2)), a: some(1)}]. *)
Definition example_heap : heap :=
  [ Empty_instance;
    Some_instance (VNumber 1);
    Some_instance (VNumber 2);
    mkObject (ProtoBuiltin ObjectPrototype) false [("a", VObject 1); ("b", VObject 2)];
    mkObject (ProtoBuiltin ObjectPrototype) false [("a", VObject 1); ("b", VObject 0)];
    mkObject (ProtoBuiltin ObjectPrototype) false [("__proto__", VObject 1)];
    mkObject (ProtoBuiltin ObjectPrototype) false [];
    Some_instance (VObject 2);
    mkObject (ProtoBuiltin ObjectPrototype) false
      [("__proto__", VObject 7); ("a", VObject 1)] ].

(** A function [f] at location 1, [some(f)] and [some("A")], and the
    mapping [{["__proto__"]: some(f), name: some("A")}]. *)
Definition function_heap : heap :=
  [ Empty_instance;
    mkObjectWith (ProtoBuiltin FunctionPrototype) true [] ["length"; "name"];
    Some_instance (VObject 1);
    Some_instance (VString "A");
    mkObject (ProtoBuiltin ObjectPrototype) false
      [("__proto__", VObject 2); ("name", VObject 3)] ].

(** [some({}).isEqual(some({}))]: two Presents that hold distinct records. *)
Definition two_records : heap :=
  [ Empty_instance;
    empty_literal;
    empty_literal;
    Some_instance (VObject 1);
    Some_instance (VObject 2) ].

(** An object made elsewhere that carries the twelve members as own
    properties (location 1), a function that carries them too (location 2),
    a record of other data (location 3) and an object that carries every
    member but [backUp] (location 4); location 0 is the function the
    members point at. *)
Definition foreign_members : list (string * val) :=
  map (fun field => (field, VObject 0))
    [ "map"; "chain"; "filter"; "getOrNull"; "getOrUndefined"; "getOrElse";
      "isPresent"; "isEmpty"; "isEqual"; "ifPresent"; "ifAbsent"; "backUp" ].

Definition foreign_heap : heap :=
  [ mkObjectWith (ProtoBuiltin FunctionPrototype) true [] ["length"; "name"];
    mkObject (ProtoBuiltin ObjectPrototype) false foreign_members;
    mkObjectWith (ProtoBuiltin FunctionPrototype) true foreign_members
      ["length"; "name"];
    mkObject (ProtoBuiltin ObjectPrototype) false
      [("name", VString "Dima Komarov"); ("hasCat", VBool true)];
    mkObject (ProtoBuiltin ObjectPrototype) false
      (removelast foreign_members) ].

(** The guard read as accepting whatever object exposes the twelve
    operations, a function included. *)
Definition accepts_every_object_with_the_operations (h : heap) (object : val) : Prop :=
  (exists l o, object = VObject l /\ h !! l = Some o) ->
  Forall (exposes h object)
    [ "map"; "chain"; "filter"; "getOrNull"; "getOrUndefined"; "getOrElse";
      "isPresent"; "isEmpty"; "isEqual"; "ifPresent"; "ifAbsent"; "backUp" ] ->
  instanceOfOptional object h = (Return (VBool true), h).

(** A mapping function that throws. *)
Definition throwing (e : val) : callback := fun _ => throw (Thrown e).

(** A predicate on numbers: is the payload [1]? *)
Definition is_one : callback := fun v => ret (VBool (strict_equals v (VNumber 1))).

(** Closes [is_mapping] on a concrete heap. *)
Ltac solve_mapping :=
  split; [eexists; split; reflexivity|];
  split; [apply (bool_decide_unpack _); vm_compute; reflexivity|];
  repeat constructor.

(** ** Further vocabulary *)

(** [value === null || value === undefined], the test of [fromNullable]. *)
Definition is_nullish (v : val) : bool :=
  strict_equals v VNull || strict_equals v VUndefined.

(** A callback without effects: it computes its result from its argument
    alone, returns it and leaves the heap as it is. *)
Definition pure_callback (f : val -> val) : callback := fun v => ret (f v).

(** What [getOrElse(d)] gives on each variant. *)
Definition payload_or (x : variant) (d : val) : val :=
  match x with
  | Present v => v
  | Absent => d
  end.

Definition is_present (x : variant) : bool :=
  match x with
  | Present _ => true
  | Absent => false
  end.

(** An object made by [new Empty()] or [new Some(v)]. *)
Definition is_instance (o : object) : Prop :=
  o = Empty_instance \/ exists v, o = Some_instance v.

(** The heap a call's own work starts from: the one its callback leaves, or
    the caller's when no callback runs. *)
Definition base_heap (h : heap) (x y : variant) (c : call) : heap :=
  match callback_run h x y c with
  | Some (_, h') => h'
  | None => h
  end.

(** The object at [pl] starts with the given fields, which are Optionals
    under distinct keys, and goes on with the entries [rest], which may hold
    anything. *)
Definition is_mapping_then (h : heap) (pl : loc) (fields : list field)
    (rest : list (string * val)) : Prop :=
  (exists po, h !! pl = Some po /\
     obj_props po = map field_entry fields ++ rest) /\
  NoDup (map field_key fields) /\
  Forall (field_ok h) fields.

(** The primitives that have no keys of their own. *)
Definition keyless_primitive (v : val) : Prop :=
  match v with
  | VBool _ | VNumber _ | VNaN | VBigInt _ | VSymbol _ => True
  | _ => False
  end.

(** A heap with locations 0 to 4 for the empty constant, a Present of
    [null], a Present of NaN, an Absent made by [filter], and a mapping
    whose first field is that Absent and whose second is not an Optional. *)
Definition edge_heap : heap :=
  [ Empty_instance;
    Some_instance VNull;
    Some_instance VNaN;
    Empty_instance;
    mkObject (ProtoBuiltin ObjectPrototype) false
      [("a", VObject 3); ("b", VNumber 5)] ].

(** Doubling and the test for a positive number, as effect-free callbacks. *)
Definition double (v : val) : val :=
  match v with
  | VNumber n => VNumber (2 * n)
  | _ => VNaN
  end.

Definition positive (v : val) : val :=
  match v with
  | VNumber n => VBool (Z.ltb 0 n)
  | _ => VBool false
  end.

(** * Properties *)

(** ** The heap: allocation and lookup *)

Lemma lookup_alloc_old (h : heap) (o : object) (l : loc) (x : object) :
  h !! l = Some x -> (h ++ [o]) !! l = Some x.
Proof.
  intros Hl. rewrite lookup_app_l; [exact Hl|].
  apply lookup_lt_Some in Hl. exact Hl.
Qed.

Lemma lookup_alloc_new (h : heap) (o : object) :
  (h ++ [o]) !! length h = Some o.
Proof. apply list_lookup_middle. reflexivity. Qed.

Lemma lookup_fresh (h : heap) : h !! length h = None.
Proof. apply lookup_ge_None. lia. Qed.

Lemma is_Some_alloc h o l v : is_Some h l v -> is_Some (h ++ [o]) l v.
Proof. apply lookup_alloc_old. Qed.

Lemma is_Empty_alloc h o l : is_Empty h l -> is_Empty (h ++ [o]) l.
Proof. apply lookup_alloc_old. Qed.

Lemma is_Some_allocated h l v : is_Some h l v -> l < length h.
Proof. intros H. apply lookup_lt_Some in H. exact H. Qed.

Lemma is_Empty_allocated h l : is_Empty h l -> l < length h.
Proof. intros H. apply lookup_lt_Some in H. exact H. Qed.

(** ** Resolution on the instances of the two classes *)

Lemma resolve_step (h : heap) (fuel : nat) (l : loc) (key : string) :
  resolve h fuel l key =
    match h !! l with
    | None => Missing
    | Some o =>
        match lookup_prop key (obj_props o) with
        | Some v => OwnData l v
        | None =>
            if mem_string key (obj_locked o) then OwnLocked l
            else
              match obj_proto o with
              | ProtoNull => Missing
              | ProtoBuiltin b =>
                  match builtin_member b key with
                  | Some b' => BuiltinMember b'
                  | None => Missing
                  end
              | ProtoRef l' =>
                  match fuel with
                  | O => Missing
                  | S fuel' => resolve h fuel' l' key
                  end
              end
        end
    end.
Proof. destruct fuel; reflexivity. Qed.

Lemma method_of_Some h l v name :
  is_Some h l v -> mem_string name class_methods = true ->
  method_of h (VObject l) name = Some (ClassSome, l).
Proof.
  intros Hl Hname. unfold method_of. rewrite resolve_step, Hl.
  unfold class_methods, mem_string in Hname. simpl in Hname.
  repeat (apply orb_prop in Hname as [Hname|Hname];
          [apply String.eqb_eq in Hname; subst name; reflexivity|]).
  discriminate.
Qed.

Lemma method_of_Empty h l name :
  is_Empty h l -> mem_string name class_methods = true ->
  method_of h (VObject l) name = Some (ClassEmpty, l).
Proof.
  intros Hl Hname. unfold method_of. rewrite resolve_step, Hl.
  unfold class_methods, mem_string in Hname. simpl in Hname.
  repeat (apply orb_prop in Hname as [Hname|Hname];
          [apply String.eqb_eq in Hname; subst name; reflexivity|]).
  discriminate.
Qed.

Lemma dispatch_Some {A} h l v name (onEmpty onSome : loc -> M A) :
  is_Some h l v -> mem_string name class_methods = true ->
  dispatch (VObject l) name onEmpty onSome h = onSome l h.
Proof.
  intros Hl Hname. unfold dispatch. rewrite (method_of_Some h l v name Hl Hname).
  reflexivity.
Qed.

Lemma dispatch_Empty {A} h l name (onEmpty onSome : loc -> M A) :
  is_Empty h l -> mem_string name class_methods = true ->
  dispatch (VObject l) name onEmpty onSome h = onEmpty l h.
Proof.
  intros Hl Hname. unfold dispatch. rewrite (method_of_Empty h l name Hl Hname).
  reflexivity.
Qed.

(** [this.value] on an instance of [Some]. *)
Lemma get_value h l v : is_Some h l v -> get (VObject l) "value" h = (Return v, h).
Proof. intros Hl. unfold get. rewrite resolve_step, Hl. reflexivity. Qed.

(** Reading a property never changes the heap. *)
Lemma get_heap o key h : snd (get o key h) = h.
Proof.
  unfold get. destruct o; try reflexivity.
  destruct (resolve h (length h) l key); reflexivity.
Qed.

(** ** Fuel *)

Lemma proto_path_allocated (h : heap) (fuel : nat) (l x : loc) :
  x ∈ proto_path h fuel l -> x < length h.
Proof.
  revert l. induction fuel as [|fuel IH]; intros l; simpl;
    destruct (h !! l) as [o|] eqn:Hl; try (intros H; inversion H; fail);
    rewrite elem_of_cons; intros [-> | Hx];
    try (apply lookup_lt_Some in Hl; exact Hl).
  - destruct (obj_proto o); inversion Hx.
  - destruct (obj_proto o) as [| |l']; try (inversion Hx; fail).
    apply (IH l' Hx).
Qed.

(** In a heap without circular chains a chain has at most as many objects
    as the heap. *)
Lemma proto_path_bound (h : heap) (fuel : nat) (l : loc) :
  acyclic h -> length (proto_path h fuel l) <= length h.
Proof.
  intros Hacyclic.
  assert (Hsub : proto_path h fuel l ⊆+ seq 0 (length h)).
  { apply NoDup_submseteq; [apply Hacyclic|].
    intros x Hx. apply elem_of_seq. split; [lia|].
    apply (proto_path_allocated h fuel l x Hx). }
  apply submseteq_length in Hsub. rewrite length_seq in Hsub. exact Hsub.
Qed.

Lemma resolve_fuel_mono (h : heap) (key : string) (f1 f2 : nat) (l : loc) :
  length (proto_path h f1 l) <= f1 -> f1 <= f2 ->
  resolve h f1 l key = resolve h f2 l key.
Proof.
  revert f2 l. induction f1 as [|f1 IH]; intros f2 l Hpath Hle;
    rewrite (resolve_step h _ l), (resolve_step h f2 l); simpl in Hpath;
    destruct (h !! l) as [o|]; try reflexivity;
    destruct (lookup_prop key (obj_props o)); try reflexivity;
    destruct (mem_string key (obj_locked o)); try reflexivity;
    destruct (obj_proto o) as [| |l']; try reflexivity.
  - simpl in Hpath. lia.
  - destruct f2 as [|f2]; [lia|]. apply IH; simpl in Hpath; lia.
Qed.

Lemma on_proto_chain_fuel_mono (h : heap) (target : loc) (f1 f2 : nat) (l : loc) :
  length (proto_path h f1 l) <= f1 -> f1 <= f2 ->
  on_proto_chain h f1 l target = on_proto_chain h f2 l target.
Proof.
  revert f2 l. induction f1 as [|f1 IH]; intros f2 l Hpath Hle;
    destruct f2 as [|f2]; try lia; simpl; simpl in Hpath;
    destruct (Nat.eqb l target); try reflexivity;
    destruct (h !! l) as [o|]; try reflexivity;
    destruct (obj_proto o) as [| |l']; try reflexivity;
    simpl in Hpath; try lia.
  apply IH; lia.
Qed.

(** The fuel the operations give themselves, the size of the heap, is
    enough: more would change nothing. *)
Lemma heap_size_is_enough (h : heap) (fuel : nat) (l : loc) :
  acyclic h -> length h <= fuel ->
  (forall key, resolve h fuel l key = resolve h (length h) l key) /\
  (forall target, on_proto_chain h fuel l target = on_proto_chain h (length h) l target).
Proof.
  intros Hacyclic Hfuel. split; intros x; symmetry.
  - apply resolve_fuel_mono; [apply proto_path_bound, Hacyclic|exact Hfuel].
  - apply on_proto_chain_fuel_mono; [apply proto_path_bound, Hacyclic|exact Hfuel].
Qed.

(** ** The methods, called through the interface *)

Section Calls.

Variables (h : heap) (this : loc).

Section OnSome.
Variable v : val.
Hypothesis Hthis : is_Some h this v.

Lemma isPresent_Some : invoke_isPresent (VObject this) h = (Return (VBool true), h).
Proof. unfold invoke_isPresent. rewrite (dispatch_Some h this v) by easy. reflexivity. Qed.

Lemma isEmpty_Some : invoke_isEmpty (VObject this) h = (Return (VBool false), h).
Proof. unfold invoke_isEmpty. rewrite (dispatch_Some h this v) by easy. reflexivity. Qed.

Lemma map_Some func :
  invoke_map (VObject this) func h =
    match func v h with
    | (Return r, h') => (Return (VObject (length h')), h' ++ [Some_instance r])
    | (Throw e, h') => (Throw e, h')
    end.
Proof.
  unfold invoke_map. rewrite (dispatch_Some h this v) by easy.
  unfold Some_map, bind. rewrite (get_value h this v Hthis).
  destruct (func v h) as [[r|e] h']; reflexivity.
Qed.

Lemma chain_Some func : invoke_chain (VObject this) func h = func v h.
Proof.
  unfold invoke_chain. rewrite (dispatch_Some h this v) by easy.
  unfold Some_chain, bind. rewrite (get_value h this v Hthis). reflexivity.
Qed.

Lemma filter_Some func :
  invoke_filter (VObject this) func h =
    match func v h with
    | (Return keep, h') =>
        if to_boolean keep then (Return (VObject this), h')
        else (Return (VObject (length h')), h' ++ [Empty_instance])
    | (Throw e, h') => (Throw e, h')
    end.
Proof.
  unfold invoke_filter. rewrite (dispatch_Some h this v) by easy.
  unfold Some_filter, bind. rewrite (get_value h this v Hthis).
  destruct (func v h) as [[r|e] h']; [|reflexivity].
  destruct (to_boolean r); reflexivity.
Qed.

Lemma getOrNull_Some : invoke_getOrNull (VObject this) h = (Return v, h).
Proof.
  unfold invoke_getOrNull. rewrite (dispatch_Some h this v) by easy.
  apply get_value, Hthis.
Qed.

Lemma getOrUndefined_Some : invoke_getOrUndefined (VObject this) h = (Return v, h).
Proof.
  unfold invoke_getOrUndefined. rewrite (dispatch_Some h this v) by easy.
  apply get_value, Hthis.
Qed.

Lemma getOrElse_Some d : invoke_getOrElse (VObject this) d h = (Return v, h).
Proof.
  unfold invoke_getOrElse. rewrite (dispatch_Some h this v) by easy.
  apply get_value, Hthis.
Qed.

Lemma ifPresent_Some func :
  invoke_ifPresent (VObject this) func h =
    match func v h with
    | (Return _, h') => (Return VUndefined, h')
    | (Throw e, h') => (Throw e, h')
    end.
Proof.
  unfold invoke_ifPresent. rewrite (dispatch_Some h this v) by easy.
  unfold Some_ifPresent, bind. rewrite (get_value h this v Hthis).
  destruct (func v h) as [[r|e] h']; reflexivity.
Qed.

Lemma ifAbsent_Some func : invoke_ifAbsent (VObject this) func h = (Return VUndefined, h).
Proof. unfold invoke_ifAbsent. rewrite (dispatch_Some h this v) by easy. reflexivity. Qed.

Lemma backUp_Some another :
  invoke_backUp (VObject this) another h = (Return (VObject this), h).
Proof. unfold invoke_backUp. rewrite (dispatch_Some h this v) by easy. reflexivity. Qed.

End OnSome.

Section OnEmpty.
Hypothesis Hthis : is_Empty h this.

Lemma isPresent_Empty : invoke_isPresent (VObject this) h = (Return (VBool false), h).
Proof. unfold invoke_isPresent. rewrite dispatch_Empty by easy. reflexivity. Qed.

Lemma isEmpty_Empty : invoke_isEmpty (VObject this) h = (Return (VBool true), h).
Proof. unfold invoke_isEmpty. rewrite dispatch_Empty by easy. reflexivity. Qed.

Lemma map_Empty func : invoke_map (VObject this) func h = (Return (VObject this), h).
Proof. unfold invoke_map. rewrite dispatch_Empty by easy. reflexivity. Qed.

Lemma chain_Empty func : invoke_chain (VObject this) func h = (Return (VObject this), h).
Proof. unfold invoke_chain. rewrite dispatch_Empty by easy. reflexivity. Qed.

Lemma filter_Empty func : invoke_filter (VObject this) func h = (Return (VObject this), h).
Proof. unfold invoke_filter. rewrite dispatch_Empty by easy. reflexivity. Qed.

Lemma getOrNull_Empty : invoke_getOrNull (VObject this) h = (Return VNull, h).
Proof. unfold invoke_getOrNull. rewrite dispatch_Empty by easy. reflexivity. Qed.

Lemma getOrUndefined_Empty : invoke_getOrUndefined (VObject this) h = (Return VUndefined, h).
Proof. unfold invoke_getOrUndefined. rewrite dispatch_Empty by easy. reflexivity. Qed.

Lemma getOrElse_Empty d : invoke_getOrElse (VObject this) d h = (Return d, h).
Proof. unfold invoke_getOrElse. rewrite dispatch_Empty by easy. reflexivity. Qed.

Lemma ifPresent_Empty func : invoke_ifPresent (VObject this) func h = (Return VUndefined, h).
Proof. unfold invoke_ifPresent. rewrite dispatch_Empty by easy. reflexivity. Qed.

Lemma ifAbsent_Empty func :
  invoke_ifAbsent (VObject this) func h =
    match func h with
    | (Return _, h') => (Return VUndefined, h')
    | (Throw e, h') => (Throw e, h')
    end.
Proof.
  unfold invoke_ifAbsent. rewrite dispatch_Empty by easy.
  unfold Empty_ifAbsent, bind. destruct (func h) as [[r|e] h']; reflexivity.
Qed.

Lemma backUp_Empty another : invoke_backUp (VObject this) another h = (Return another, h).
Proof. unfold invoke_backUp. rewrite dispatch_Empty by easy. reflexivity. Qed.

End OnEmpty.

End Calls.

(** ** isEqual *)

Lemma isEqual_Some_unfold h this v another compareFunc :
  is_Some h this v ->
  invoke_isEqual (VObject this) another compareFunc h =
    (let! mapped := invoke_map another (compare_with v compareFunc) in
     invoke_getOrElse mapped (VBool false)) h.
Proof.
  intros Hthis. unfold invoke_isEqual. rewrite (dispatch_Some h this v) by easy.
  unfold Some_isEqual, bind at 1. unfold bind at 3.
  assert (Hmap : forall f g : callback, (forall w, f w h = g w h) ->
            invoke_map another f h = invoke_map another g h).
  { intros f g Hfg. unfold invoke_map, dispatch.
    destruct (method_of h another "map") as [[[] l]|]; try reflexivity.
    unfold Some_map, bind. pose proof (get_heap (VObject l) "value" h) as Hg.
    destruct (get (VObject l) "value" h) as [[w|e] h1]; simpl in Hg; subst h1;
      [rewrite Hfg|]; reflexivity. }
  rewrite (Hmap _ (compare_with v compareFunc)); [reflexivity|].
  intros w. unfold compare_with, bind.
  destruct compareFunc; rewrite (get_value h this v Hthis); reflexivity.
Qed.

Lemma isEqual_Empty_unfold h this another compareFunc :
  is_Empty h this ->
  invoke_isEqual (VObject this) another compareFunc h = invoke_isEmpty another h.
Proof.
  intros Hthis. unfold invoke_isEqual. rewrite dispatch_Empty by easy. reflexivity.
Qed.

(** Without a comparator, two Presents compare their payloads with [===]. *)
Lemma isEqual_strict h a b v w :
  is_Some h a v -> is_Some h b w ->
  invoke_isEqual (VObject a) (VObject b) None h =
    (Return (VBool (strict_equals v w)),
     h ++ [Some_instance (VBool (strict_equals v w))]).
Proof.
  intros Ha Hb. rewrite (isEqual_Some_unfold h a v) by exact Ha.
  unfold bind. rewrite (map_Some h b w Hb). simpl.
  apply getOrElse_Some. apply lookup_alloc_new.
Qed.

(** C3: [Present(v).isEqual(b, compareFunc)] is
    [b.map(w => compareFunc ? compareFunc(v, w) : v === w).getOrElse(false)]
    and [Absent.isEqual(b)] is [b.isEmpty()].  Without a comparator two
    Present values are compared with [===], so payloads that are distinct
    object references are unequal; a Present never equals an Absent, and
    [Absent.isEqual(Absent)] is true. *)
Theorem isEqual_spec (h : heap) (a b : loc) (another : val)
    (compareFunc : option comparator) :
  (forall v, is_Some h a v ->
     invoke_isEqual (VObject a) another compareFunc h =
       (let! mapped := invoke_map another (compare_with v compareFunc) in
        invoke_getOrElse mapped (VBool false)) h) /\
  (is_Empty h a ->
     invoke_isEqual (VObject a) another compareFunc h = invoke_isEmpty another h) /\
  (forall v w, is_Some h a v -> is_Some h b w ->
     invoke_isEqual (VObject a) (VObject b) None h =
       (Return (VBool (strict_equals v w)),
        h ++ [Some_instance (VBool (strict_equals v w))])) /\
  (forall l1 l2 : loc, strict_equals (VObject l1) (VObject l2) = true <-> l1 = l2) /\
  (forall v, is_Some h a v -> is_Empty h b ->
     invoke_isEqual (VObject a) (VObject b) compareFunc h = (Return (VBool false), h)) /\
  (forall w, is_Empty h a -> is_Some h b w ->
     invoke_isEqual (VObject a) (VObject b) compareFunc h = (Return (VBool false), h)) /\
  (is_Empty h a -> is_Empty h b ->
     invoke_isEqual (VObject a) (VObject b) compareFunc h = (Return (VBool true), h)).
Proof.
  split; [intros v Ha; apply isEqual_Some_unfold, Ha|].
  split; [intros Ha; apply isEqual_Empty_unfold, Ha|].
  split.
  { intros v w Ha Hb. apply isEqual_strict; assumption. }
  split; [intros l1 l2; simpl; apply Nat.eqb_eq|].
  split.
  { intros v Ha Hb. rewrite (isEqual_Some_unfold h a v) by exact Ha.
    unfold bind. rewrite (map_Empty h b Hb). apply (getOrElse_Empty h b Hb). }
  split.
  { intros w Ha Hb. rewrite isEqual_Empty_unfold by exact Ha.
    apply (isEmpty_Some h b w Hb). }
  intros Ha Hb. rewrite isEqual_Empty_unfold by exact Ha. apply (isEmpty_Empty h b Hb).
Qed.

(** With a comparator, two Present values are equal exactly as the
    comparator says, and what the comparator throws is what the call throws. *)
Lemma isEqual_comparator h a b v w compare :
  is_Some h a v -> is_Some h b w ->
  invoke_isEqual (VObject a) (VObject b) (Some compare) h =
    match compare v w h with
    | (Return r, h') => (Return r, h' ++ [Some_instance r])
    | (Throw e, h') => (Throw e, h')
    end.
Proof.
  intros Ha Hb. rewrite (isEqual_Some_unfold h a v) by exact Ha.
  unfold bind. rewrite (map_Some h b w Hb). simpl.
  destruct (compare v w h) as [[r|e] h']; [|reflexivity].
  apply getOrElse_Some. apply lookup_alloc_new.
Qed.

(** ** Constructors *)

Lemma some_spec (value : val) (h : heap) :
  some value h = (Return (VObject (length h)), h ++ [Some_instance value]) /\
  is_Some (h ++ [Some_instance value]) (length h) value.
Proof. split; [reflexivity|apply lookup_alloc_new]. Qed.

(** C5: [fromNullable(v)] is the shared [empty] exactly when [v] is [null]
    or [undefined]; any other value, the falsy [0] and [""] included, is
    wrapped in a new Present. *)
Theorem fromNullable_spec (empty : loc) (h : heap) (v : val) :
  is_Empty h empty ->
  ((v = VNull \/ v = VUndefined) ->
     fromNullable empty v h = (Return (VObject empty), h)) /\
  (~ (v = VNull \/ v = VUndefined) ->
     fromNullable empty v h = (Return (VObject (length h)), h ++ [Some_instance v]) /\
     is_Some (h ++ [Some_instance v]) (length h) v /\
     length h <> empty) /\
  (forall r h', fromNullable empty v h = (Return r, h') ->
     r = VObject empty <-> (v = VNull \/ v = VUndefined)) /\
  (let! o := fromNullable empty (VNumber 0) in invoke_isPresent o) h =
    (Return (VBool true), h ++ [Some_instance (VNumber 0)]) /\
  (let! o := fromNullable empty (VString "") in invoke_isPresent o) h =
    (Return (VBool true), h ++ [Some_instance (VString "")]) /\
  (let! o := fromNullable empty VNull in invoke_isPresent o) h =
    (Return (VBool false), h) /\
  (let! o := fromNullable empty VUndefined in invoke_isPresent o) h =
    (Return (VBool false), h).
Proof.
  intros Hempty.
  assert (Hnull : (v = VNull \/ v = VUndefined) ->
            fromNullable empty v h = (Return (VObject empty), h)).
  { intros [-> | ->]; reflexivity. }
  assert (Hother : ~ (v = VNull \/ v = VUndefined) ->
            fromNullable empty v h =
              (Return (VObject (length h)), h ++ [Some_instance v])).
  { intros Hv. destruct v; try reflexivity; exfalso; apply Hv; auto. }
  pose proof (is_Empty_allocated h empty Hempty) as Hlt.
  split; [exact Hnull|].
  split.
  { intros Hv. split; [exact (Hother Hv)|]. split; [apply lookup_alloc_new|lia]. }
  split.
  { intros r h' Hr. split.
    - intros ->.
      destruct v; auto; exfalso;
        (rewrite Hother in Hr by (intros [?|?]; discriminate));
        inversion Hr; lia.
    - intros Hv. rewrite (Hnull Hv) in Hr. inversion Hr. reflexivity. }
  repeat split.
  - unfold bind; simpl. apply (isPresent_Some _ _ (VNumber 0)). apply lookup_alloc_new.
  - unfold bind; simpl. apply (isPresent_Some _ _ (VString "")). apply lookup_alloc_new.
  - unfold bind; simpl. apply isPresent_Empty, Hempty.
  - unfold bind; simpl. apply isPresent_Empty, Hempty.
Qed.

(** ** filter *)

(** C7: on a Present, [filter(p)] returns the receiver itself when [p(v)]
    holds and a newly allocated Absent when it does not; on an Absent it
    returns the receiver and the predicate is not run. *)
Theorem filter_spec (h : heap) (this : loc) (v : val) (p : callback) :
  (is_Some h this v ->
     forall keep h', p v h = (Return keep, h') ->
       (to_boolean keep = true ->
          invoke_filter (VObject this) p h = (Return (VObject this), h')) /\
       (to_boolean keep = false ->
          invoke_filter (VObject this) p h =
            (Return (VObject (length h')), h' ++ [Empty_instance]) /\
          h' !! length h' = None /\
          is_Empty (h' ++ [Empty_instance]) (length h'))) /\
  (is_Empty h this ->
     invoke_filter (VObject this) p h = (Return (VObject this), h)) /\
  (forall keep h',
     p v (h ++ [Some_instance v]) = (Return keep, h') ->
     (let! o := some v in invoke_filter o p) h =
       if to_boolean keep then (Return (VObject (length h)), h')
       else (Return (VObject (length h')), h' ++ [Empty_instance])).
Proof.
  split.
  { intros Hthis keep h' Hp. rewrite (filter_Some h this v Hthis), Hp. split.
    - intros ->. reflexivity.
    - intros ->. split; [reflexivity|]. split; [apply lookup_fresh|apply lookup_alloc_new]. }
  split.
  { intros Hthis. apply filter_Empty, Hthis. }
  intros keep h' Hp. unfold bind; simpl.
  rewrite (filter_Some _ _ v) by apply lookup_alloc_new. rewrite Hp. reflexivity.
Qed.

(** ** backUp *)

(** C8: a Present receiver returns itself from [backUp] whatever the
    argument is, so [some(A).backUp(some(B)).getOrNull()] is [A]; an Absent
    receiver returns the argument, so [Absent.backUp(some(B)).getOrNull()]
    is [B]. *)
Theorem backUp_spec (h : heap) (A B : val) :
  (forall this another, is_Some h this A ->
     invoke_backUp (VObject this) another h = (Return (VObject this), h)) /\
  (let! a := some A in
   let! b := some B in
   let! r := invoke_backUp a b in
   invoke_getOrNull r) h =
    (Return A, (h ++ [Some_instance A]) ++ [Some_instance B]) /\
  (forall this another, is_Empty h this ->
     invoke_backUp (VObject this) another h = (Return another, h)) /\
  (forall this, is_Empty h this ->
     (let! b := some B in
      let! r := invoke_backUp (VObject this) b in
      invoke_getOrNull r) h = (Return B, h ++ [Some_instance B])).
Proof.
  split; [intros this another Hthis; apply (backUp_Some h this A Hthis)|].
  split.
  { unfold bind; simpl.
    rewrite (backUp_Some _ (length h) A)
      by (apply is_Some_alloc, lookup_alloc_new).
    apply getOrNull_Some. apply is_Some_alloc, lookup_alloc_new. }
  split; [intros this another Hthis; apply (backUp_Empty h this Hthis)|].
  intros this Hthis. unfold bind; simpl.
  rewrite backUp_Empty by (apply is_Empty_alloc, Hthis).
  apply getOrNull_Some. apply lookup_alloc_new.
Qed.

(** ** Chains of transformations on an Absent *)

(** C10: [map], [chain] and [filter] of an Absent return the receiver, so
    any chain of them that starts at [empty] ends at [empty] itself, with
    the heap as it was: no callback ran and no Optional was allocated. *)
Theorem empty_absorbs (h : heap) (empty : loc) (ts : list transform) :
  is_Empty h empty ->
  (forall func, Empty_map empty func h = (Return (VObject empty), h)) /\
  (forall func, Empty_chain empty func h = (Return (VObject empty), h)) /\
  (forall func, Empty_filter empty func h = (Return (VObject empty), h)) /\
  apply_transforms (VObject empty) ts h = (Return (VObject empty), h).
Proof.
  intros Hempty. repeat split.
  induction ts as [|t rest IH]; [reflexivity|].
  simpl. unfold bind.
  destruct t; simpl;
    [rewrite map_Empty by exact Hempty
    |rewrite chain_Empty by exact Hempty
    |rewrite filter_Empty by exact Hempty]; exact IH.
Qed.

(** ** instanceOfOptional *)

Lemma all_fields_in_Forall h l fields :
  all_fields_in h l fields = true <->
  Forall (fun field => has_property h l field = true) fields.
Proof.
  induction fields as [|f fs IH]; simpl.
  - split; [constructor|reflexivity].
  - destruct (has_property h l f) eqn:Hf; simpl.
    + rewrite IH. split; [intros H; constructor; assumption|intros H; inversion H; assumption].
    + split; [discriminate|intros H; inversion H; congruence].
Qed.

(** The fields probed are the twelve operations of the interface. *)
Lemma optional_fields_are_the_interface :
  (forall field, In field optional_fields <-> In field class_methods) /\
  NoDup optional_fields /\ length optional_fields = 12.
Proof.
  split; [|split; [|reflexivity]].
  - intros field. unfold optional_fields, class_methods. simpl. tauto.
  - apply (bool_decide_unpack _). vm_compute. reflexivity.
Qed.

Lemma has_property_instance h l o field :
  h !! l = Some o ->
  (obj_proto o = ProtoBuiltin EmptyPrototype \/ obj_proto o = ProtoBuiltin SomePrototype) ->
  mem_string field class_methods = true ->
  has_property h l field = true.
Proof.
  intros Hl Hproto Hfield. unfold has_property. rewrite resolve_step, Hl.
  destruct (lookup_prop field (obj_props o)); [reflexivity|].
  assert (Hb : forall b, b = EmptyPrototype \/ b = SomePrototype ->
                 builtin_member b field = Some b).
  { intros b Hcase. unfold builtin_member.
    replace (builtin_own b field) with true; [reflexivity|].
    symmetry. unfold mem_string in Hfield.
    destruct Hcase as [-> | ->]; unfold builtin_own, mem_string; cbn [existsb];
      rewrite Hfield; apply orb_true_r. }
  destruct (mem_string field (obj_locked o)); [reflexivity|].
  destruct Hproto as [-> | ->]; rewrite Hb by auto; reflexivity.
Qed.

Lemma instanceOfOptional_answer (h : heap) (object : val) :
  exists answer : bool,
    instanceOfOptional object h = (Return (VBool answer), h) /\
    (answer = true <->
       typeof h object = "object" /\ object <> VNull /\
       Forall (exposes h object) optional_fields).
Proof.
  unfold instanceOfOptional.
  destruct (String.eqb (typeof h object) "object") eqn:Htype; simpl.
  - apply String.eqb_eq in Htype.
    destruct object; try discriminate Htype.
    + exists false. split; [reflexivity|]. split; [discriminate|].
      intros (_ & Hn & _). congruence.
    + simpl. exists (all_fields_in h l optional_fields). split; [reflexivity|].
      rewrite all_fields_in_Forall. split.
      * intros Hall. split; [exact Htype|]. split; [discriminate|].
        eapply Forall_impl; [exact Hall|]. intros f Hf. exists l. auto.
      * intros (_ & _ & Hall). eapply Forall_impl; [exact Hall|].
        intros f (l' & Heq & Hf). inversion Heq; subst l'. exact Hf.
  - exists false. split; [reflexivity|]. split; [discriminate|].
    intros (Ht & _). rewrite Ht in Htype. discriminate.
Qed.

(** The loop probes the twelve names of the interface, in its own order. *)
Lemma optional_fields_Forall (P : string -> Prop) :
  Forall P optional_fields <->
  Forall P
    [ "map"; "chain"; "filter"; "getOrNull"; "getOrUndefined"; "getOrElse";
      "isPresent"; "isEmpty"; "isEqual"; "ifPresent"; "ifAbsent"; "backUp" ].
Proof.
  unfold optional_fields. rewrite !Forall_cons, !Forall_nil. tauto.
Qed.

(** C4, amended: [instanceOfOptional] answers [true] exactly for the values
    that [typeof] calls ["object"], are not [null] and expose all twelve
    operations of the interface ([map], [chain], [filter], [getOrNull],
    [getOrUndefined], [getOrElse], [isPresent], [isEmpty], [isEqual],
    [ifPresent], [ifAbsent], [backUp]) as members, own or inherited: the
    instances of both classes and any such object made elsewhere.  It
    answers [false] for [null], [undefined], every primitive, every
    function, even one that carries the twelve members, and every object
    that lacks one of the operations.  It never throws and leaves the heap
    alone. *)
Theorem instanceOfOptional_spec (h : heap) (object : val) :
  exists answer : bool,
    instanceOfOptional object h = (Return (VBool answer), h) /\
    (answer = true <->
       typeof h object = "object" /\ object <> VNull /\
       Forall (exposes h object)
         [ "map"; "chain"; "filter"; "getOrNull"; "getOrUndefined"; "getOrElse";
           "isPresent"; "isEmpty"; "isEqual"; "ifPresent"; "ifAbsent"; "backUp" ]) /\
    (is_Optional h object -> answer = true) /\
    (forall l po, object = VObject l -> h !! l = Some po -> obj_callable po = false ->
       Forall (fun field => lookup_prop field (obj_props po) <> None)
         [ "map"; "chain"; "filter"; "getOrNull"; "getOrUndefined"; "getOrElse";
           "isPresent"; "isEmpty"; "isEqual"; "ifPresent"; "ifAbsent"; "backUp" ] ->
       answer = true) /\
    (forall l po, object = VObject l -> h !! l = Some po -> obj_callable po = true ->
       answer = false) /\
    (typeof h object <> "object" -> answer = false) /\
    ((forall l, object <> VObject l) -> answer = false) /\
    (forall field,
       In field
         [ "map"; "chain"; "filter"; "getOrNull"; "getOrUndefined"; "getOrElse";
           "isPresent"; "isEmpty"; "isEqual"; "ifPresent"; "ifAbsent"; "backUp" ] ->
       ~ exposes h object field -> answer = false).
Proof.
  destruct (instanceOfOptional_answer h object) as (answer & Hrun & Hiff).
  rewrite optional_fields_Forall in Hiff. exists answer.
  split; [exact Hrun|]. split; [exact Hiff|].
  split.
  { intros (l & -> & Hl). apply Hiff.
    assert (Hobj : exists o, h !! l = Some o /\ obj_callable o = false /\
              (obj_proto o = ProtoBuiltin EmptyPrototype \/
               obj_proto o = ProtoBuiltin SomePrototype)).
    { destruct Hl as [Hl | [v Hl]]; eexists; (split; [exact Hl|]); simpl; auto. }
    destruct Hobj as (o & Ho & Hcall & Hproto).
    split; [simpl; rewrite Ho, Hcall; reflexivity|]. split; [discriminate|].
    apply Forall_forall. intros f Hf. exists l. split; [reflexivity|].
    apply (has_property_instance h l o f Ho Hproto).
    apply list_elem_of_In in Hf. simpl in Hf.
    repeat (destruct Hf as [<- | Hf]; [reflexivity|]). contradiction. }
  split.
  { intros l po -> Hpo Hcall Hown. apply Hiff.
    split; [simpl; rewrite Hpo, Hcall; reflexivity|]. split; [discriminate|].
    eapply Forall_impl; [exact Hown|]. intros f Hf. exists l. split; [reflexivity|].
    unfold has_property. rewrite resolve_step, Hpo.
    destruct (lookup_prop f (obj_props po)) eqn:Hown_f; [reflexivity|contradiction]. }
  split.
  { intros l po -> Hpo Hcall. destruct answer; [|reflexivity]. exfalso.
    destruct (proj1 Hiff eq_refl) as (Ht & _). simpl in Ht.
    rewrite Hpo, Hcall in Ht. discriminate Ht. }
  split.
  { intros Ht. destruct answer; [|reflexivity]. exfalso. apply Ht, Hiff. reflexivity. }
  split.
  { intros Hprim. destruct answer; [|reflexivity]. exfalso.
    destruct (proj1 Hiff eq_refl) as (Ht & Hn & _).
    destruct object; try discriminate Ht; [congruence|exact (Hprim l eq_refl)]. }
  intros f Hin Hno. destruct answer; [|reflexivity]. exfalso.
  destruct (proj1 Hiff eq_refl) as (_ & _ & Hall).
  rewrite Forall_forall in Hall. apply Hno, Hall, list_elem_of_In, Hin.
Qed.

(** What [typeof] says of the primitives: none of them is an ["object"]
    except [null]. *)
Lemma typeof_primitive h v :
  (forall l, v <> VObject l) -> v <> VNull -> typeof h v <> "object".
Proof. intros Hobj Hnull. destruct v; simpl; congruence. Qed.

(** ** group *)

Lemma group_unfold partial :
  group partial =
    (let! initial := alloc empty_literal in
     let! keys := Object_keys partial in
     let! start := some initial in
     reduce (group_step partial) keys start).
Proof. reflexivity. Qed.

Lemma lookup_prop_None key ps : ~ In key (map fst ps) -> lookup_prop key ps = None.
Proof.
  induction ps as [|[k v] ps IH]; simpl; [reflexivity|].
  intros Hno. destruct (String.eqb k key) eqn:Hk.
  - apply String.eqb_eq in Hk. tauto.
  - apply IH. tauto.
Qed.

Lemma lookup_prop_here key v ps : lookup_prop key ((key, v) :: ps) = Some v.
Proof. simpl. rewrite String.eqb_refl. reflexivity. Qed.

Lemma set_prop_new key v ps : lookup_prop key ps = None -> set_prop key v ps = ps ++ [(key, v)].
Proof.
  induction ps as [|[k w] ps IH]; simpl; [reflexivity|].
  destruct (String.eqb k key); [discriminate|].
  intros H. rewrite IH by exact H. reflexivity.
Qed.

(** With distinct keys, each key of a mapping reads back its own entry. *)
Lemma lookup_prop_field fields f :
  NoDup (map field_key fields) -> In f fields ->
  lookup_prop (field_key f) (map field_entry fields) = Some (VObject (field_loc f)).
Proof.
  induction fields as [|g rest IH]; simpl; [tauto|].
  intros Hnd [-> | Hin].
  - rewrite String.eqb_refl. reflexivity.
  - apply NoDup_cons in Hnd as [Hg Hnd].
    destruct (String.eqb (field_key g) (field_key f)) eqn:Hk.
    + apply String.eqb_eq in Hk. exfalso. apply Hg. rewrite Hk.
      apply list_elem_of_In, in_map, Hin.
    + apply IH; assumption.
Qed.

(** *** Assignment onto the accumulator record *)

(** Every member of [Object.prototype] but the accessor [__proto__] is a
    writable data property, so on a record that inherits from it directly
    an assignment under a new key other than [__proto__] adds the key. *)
Lemma object_Set_record (h : heap) (r : loc) (done : list (string * val))
    (key : string) (v : val) :
  h !! r = Some (mkObject (ProtoBuiltin ObjectPrototype) false done) ->
  ~ In key (map fst done) ->
  key <> "__proto__" ->
  object_Set r key v h =
    (Return tt,
     <[r := mkObject (ProtoBuiltin ObjectPrototype) false (done ++ [(key, v)])]> h).
Proof.
  intros Hrec Hnew Hkey.
  assert (Hown : lookup_prop key done = None) by (apply lookup_prop_None, Hnew).
  apply String.eqb_neq in Hkey.
  unfold object_Set. rewrite Hrec, resolve_step, Hrec.
  cbn [obj_props obj_proto obj_locked mem_string existsb]. rewrite Hown.
  unfold store, with_props. cbn [obj_props obj_proto obj_callable obj_locked].
  rewrite (set_prop_new key v done Hown).
  unfold builtin_member.
  destruct (builtin_own ObjectPrototype key); [rewrite Hkey|]; reflexivity.
Qed.

(** *** One step of the fold *)

Lemma get_own (h : heap) (l : loc) (o : object) (key : string) (v : val) :
  h !! l = Some o -> lookup_prop key (obj_props o) = Some v ->
  get (VObject l) key h = (Return v, h).
Proof. intros Hl Hk. unfold get. rewrite resolve_step, Hl, Hk. reflexivity. Qed.

Lemma get_object_returns (h : heap) (l : loc) (key : string) :
  exists v, get (VObject l) key h = (Return v, h).
Proof. unfold get. destruct (resolve h (length h) l key); eauto. Qed.

Lemma Object_assign_literal (h : heap) (r : loc) (key : string) (v : val) :
  Object_assign (VObject r) (VObject (length h)) (h ++ [computed_literal key v]) =
    match object_Set r key v (h ++ [computed_literal key v]) with
    | (Return _, h') => (Return (VObject r), h')
    | (Throw e, h') => (Throw e, h')
    end.
Proof.
  unfold Object_assign, bind, Object_keys. rewrite lookup_alloc_new.
  cbn [computed_literal obj_props map fst assign_keys].
  rewrite lookup_alloc_new. cbn [computed_literal obj_props].
  rewrite lookup_prop_here. unfold bind.
  destruct (object_Set r key v (h ++ [computed_literal key v])) as [[[]|e] h'];
    reflexivity.
Qed.

(** While the accumulator is Present, a Present field is assigned onto the
    record and a new Present wraps the same record. *)
Lemma group_step_present (h : heap) (pl a r ol : loc) (po : object)
    (key : string) (w : val) :
  h !! pl = Some po ->
  lookup_prop key (obj_props po) = Some (VObject ol) ->
  is_Some h ol w ->
  is_Some h a (VObject r) ->
  group_step (VObject pl) (VObject a) key h =
    match object_Set r key w (h ++ [computed_literal key w]) with
    | (Return _, h') => (Return (VObject (length h')), h' ++ [Some_instance (VObject r)])
    | (Throw e, h') => (Throw e, h')
    end.
Proof.
  intros Hpl Hkey Hol Ha. unfold group_step, bind.
  rewrite (get_own h pl po key _ Hpl Hkey).
  rewrite (chain_Some h a _ Ha). rewrite (map_Some h ol w Hol).
  unfold bind, alloc. rewrite Object_assign_literal.
  destruct (object_Set r key w (h ++ [computed_literal key w])) as [[[]|e] h'];
    reflexivity.
Qed.

(** While the accumulator is Present, an Absent field becomes the
    accumulator: the record is left as it is and nothing is allocated. *)
Lemma group_step_absent (h : heap) (pl a r ol : loc) (po : object) (key : string) :
  h !! pl = Some po ->
  lookup_prop key (obj_props po) = Some (VObject ol) ->
  is_Empty h ol ->
  is_Some h a (VObject r) ->
  group_step (VObject pl) (VObject a) key h = (Return (VObject ol), h).
Proof.
  intros Hpl Hkey Hol Ha. unfold group_step, bind.
  rewrite (get_own h pl po key _ Hpl Hkey).
  rewrite (chain_Some h a _ Ha). apply (map_Empty h ol Hol).
Qed.

(** Once the accumulator is Absent it stays that very Absent. *)
Lemma group_step_stuck (h : heap) (pl e : loc) (key : string) :
  is_Empty h e ->
  group_step (VObject pl) (VObject e) key h = (Return (VObject e), h).
Proof.
  intros He. unfold group_step, bind.
  destruct (get_object_returns h pl key) as [v ->].
  apply (chain_Empty h e He).
Qed.

Lemma reduce_stuck (h : heap) (pl e : loc) (keys : list string) :
  is_Empty h e ->
  reduce (group_step (VObject pl)) keys (VObject e) h = (Return (VObject e), h).
Proof.
  intros He. induction keys as [|key rest IH]; [reflexivity|].
  simpl. unfold bind. rewrite (group_step_stuck h pl e key He). exact IH.
Qed.

(** *** The fold as a whole *)

Lemma group_inv_step (h0 h : heap) (a : loc) (done : list (string * val))
    (key : string) (w : val) :
  group_inv h0 h a done ->
  let rec' := mkObject (ProtoBuiltin ObjectPrototype) false (done ++ [(key, w)]) in
  let h' := <[length h0 := rec']> (h ++ [computed_literal key w]) in
  group_inv h0 (h' ++ [Some_instance (VObject (length h0))]) (length h')
    (done ++ [(key, w)]).
Proof.
  intros Hinv rec' h'. pose proof (inv_record _ _ _ _ Hinv) as Hrec.
  assert (Hlen : length h0 < length h) by (apply lookup_lt_Some in Hrec; exact Hrec).
  assert (Hlen' : length h' = S (length h)).
  { unfold h'. rewrite length_insert, length_app. simpl. lia. }
  constructor.
  - intros l Hl. rewrite lookup_app_l by lia. unfold h'.
    rewrite list_lookup_insert_ne by lia. rewrite lookup_app_l by lia.
    apply (inv_old _ _ _ _ Hinv), Hl.
  - apply lookup_alloc_new.
  - rewrite lookup_app_l by lia. unfold h'.
    apply list_lookup_insert_eq. rewrite length_app. simpl. lia.
Qed.

(** The fold over fields that are Optionals under distinct keys, none of
    them [__proto__]. *)
Lemma group_loop (h0 : heap) (pl : loc) (po : object) :
  h0 !! pl = Some po ->
  forall (fields : list field) (done : list (string * val)) (h : heap) (a : loc),
    (forall f, In f fields ->
       lookup_prop (field_key f) (obj_props po) = Some (VObject (field_loc f))) ->
    NoDup (map fst done ++ map field_key fields) ->
    ~ In "__proto__" (map field_key fields) ->
    Forall (field_ok h0) fields ->
    group_inv h0 h a done ->
    exists res hfin,
      reduce (group_step (VObject pl)) (map field_key fields) (VObject a) h =
        (Return res, hfin) /\
      (forall l, l < length h0 -> hfin !! l = h0 !! l) /\
      hfin !! length h0 =
        Some (mkObject (ProtoBuiltin ObjectPrototype) false
                (done ++ present_prefix fields)) /\
      match first_absent fields with
      | None => exists a', res = VObject a' /\ is_Some hfin a' (VObject (length h0))
      | Some e => res = VObject e
      end.
Proof.
  intros Hpl. pose proof (lookup_lt_Some _ _ _ Hpl) as Hpl_lt.
  induction fields as [|f rest IH]; intros done h a Hkeys Hnd Hno Hok Hinv.
  - exists (VObject a), h. simpl. rewrite app_nil_r.
    split; [reflexivity|]. split; [apply (inv_old _ _ _ _ Hinv)|].
    split; [apply (inv_record _ _ _ _ Hinv)|].
    exists a. split; [reflexivity|apply (inv_acc _ _ _ _ Hinv)].
  - pose proof (inv_record _ _ _ _ Hinv) as Hrec.
    pose proof (inv_old _ _ _ _ Hinv) as Hold.
    pose proof (inv_acc _ _ _ _ Hinv) as Hacc.
    assert (Hlen : length h0 < length h) by (apply lookup_lt_Some in Hrec; exact Hrec).
    apply Forall_cons in Hok as [Hf Hok].
    assert (Hkey : lookup_prop (field_key f) (obj_props po) = Some (VObject (field_loc f)))
      by (apply Hkeys; left; reflexivity).
    assert (Hpl' : h !! pl = Some po) by (rewrite Hold by exact Hpl_lt; exact Hpl).
    cbn [map reduce present_prefix first_absent]. unfold bind.
    unfold field_ok in Hf. destruct (field_payload f) as [w|] eqn:Hpayload.
    + (* a Present field *)
      pose proof (is_Some_allocated _ _ _ Hf) as Hol_lt.
      assert (Hol : is_Some h (field_loc f) w)
        by (unfold is_Some; rewrite Hold by exact Hol_lt; exact Hf).
      rewrite (group_step_present h pl a (length h0) (field_loc f) po
                 (field_key f) w Hpl' Hkey Hol Hacc).
      assert (Hfresh : ~ In (field_key f) (map fst done)).
      { intros Hin. apply NoDup_app in Hnd as (_ & Hdisj & _).
        apply (Hdisj (field_key f)); [apply list_elem_of_In, Hin|].
        simpl. apply list_elem_of_here. }
      assert (Hplain : field_key f <> "__proto__").
      { intros Heq. apply Hno. left. exact Heq. }
      rewrite (object_Set_record (h ++ [computed_literal (field_key f) w])
                 (length h0) done (field_key f) w
                 (lookup_alloc_old _ _ _ _ Hrec) Hfresh Hplain).
      destruct (IH (done ++ [(field_key f, w)])
                  (<[length h0 := mkObject (ProtoBuiltin ObjectPrototype) false
                       (done ++ [(field_key f, w)])]>
                     (h ++ [computed_literal (field_key f) w])
                   ++ [Some_instance (VObject (length h0))])
                  (length (<[length h0 := mkObject (ProtoBuiltin ObjectPrototype) false
                       (done ++ [(field_key f, w)])]>
                     (h ++ [computed_literal (field_key f) w]))))
        as (res & hfin & Hrun & Hold' & Hrec' & Hres).
      { intros g Hg. apply Hkeys. right. exact Hg. }
      { rewrite map_app, <- app_assoc. exact Hnd. }
      { intros Hin. apply Hno. right. exact Hin. }
      { exact Hok. }
      { apply (group_inv_step h0 h a); assumption. }
      exists res, hfin. rewrite <- app_assoc in Hrec'.
      repeat split; assumption.
    + (* the first Absent field *)
      pose proof (is_Empty_allocated _ _ Hf) as Hol_lt.
      assert (Hol : is_Empty h (field_loc f))
        by (unfold is_Empty; rewrite Hold by exact Hol_lt; exact Hf).
      rewrite (group_step_absent h pl a (length h0) (field_loc f) po
                 (field_key f) Hpl' Hkey Hol Hacc).
      rewrite (reduce_stuck h pl (field_loc f) _ Hol).
      exists (VObject (field_loc f)), h. rewrite app_nil_r.
      repeat split; assumption.
Qed.

Lemma group_inv_start (h : heap) :
  group_inv h ((h ++ [empty_literal]) ++ [Some_instance (VObject (length h))])
    (length (h ++ [empty_literal])) [].
Proof.
  constructor.
  - intros l Hl. rewrite lookup_app_l by (rewrite length_app; simpl; lia).
    rewrite lookup_app_l by lia. reflexivity.
  - apply lookup_alloc_new.
  - apply lookup_alloc_old, lookup_alloc_new.
Qed.

(** [group] on a mapping of Optionals with no key [__proto__]. *)
Lemma group_run (h : heap) (pl : loc) (fields : list field) :
  is_mapping h pl fields ->
  ~ In "__proto__" (map field_key fields) ->
  exists res hfin,
    group (VObject pl) h = (Return res, hfin) /\
    (forall l, l < length h -> hfin !! l = h !! l) /\
    hfin !! length h =
      Some (mkObject (ProtoBuiltin ObjectPrototype) false (present_prefix fields)) /\
    match first_absent fields with
    | None => exists a, res = VObject a /\ is_Some hfin a (VObject (length h))
    | Some e => res = VObject e /\ is_Empty hfin e
    end.
Proof.
  intros ((po & Hpl & Hprops) & Hnd & Hok) Hno.
  pose proof (lookup_lt_Some _ _ _ Hpl) as Hpl_lt.
  rewrite group_unfold. unfold bind, alloc, Object_keys, some, alloc.
  rewrite (lookup_alloc_old h empty_literal pl po Hpl).
  rewrite Hprops, map_map. cbn [field_entry fst].
  destruct (group_loop h pl po Hpl fields []
              ((h ++ [empty_literal]) ++ [Some_instance (VObject (length h))])
              (length (h ++ [empty_literal])))
    as (res & hfin & Hrun & Hold & Hrec & Hres).
  - intros f Hf. rewrite Hprops. apply lookup_prop_field; assumption.
  - exact Hnd.
  - exact Hno.
  - exact Hok.
  - apply group_inv_start.
  - exists res, hfin. simpl in Hrec.
    split; [exact Hrun|]. split; [exact Hold|]. split; [exact Hrec|].
    destruct (first_absent fields) as [e|] eqn:Habsent; [|exact Hres].
    split; [exact Hres|].
    assert (He : is_Empty h e).
    { clear -Hok Habsent. induction Hok as [|f rest Hf Hok IH]; [discriminate|].
      simpl in Habsent. unfold field_ok in Hf.
      destruct (field_payload f); [apply IH, Habsent|].
      inversion Habsent; subst e. exact Hf. }
    unfold is_Empty. rewrite Hold by (apply (is_Empty_allocated h e He)). exact He.
Qed.

(** *** The fields of a mapping, unwrapped *)

Lemma present_prefix_all (fields : list field) :
  first_absent fields = None -> present_prefix fields = unwrapped fields.
Proof.
  induction fields as [|f rest IH]; [reflexivity|]. simpl. unfold unwrapped. simpl.
  destruct (field_payload f); [|discriminate]. intros H. rewrite (IH H). reflexivity.
Qed.

Lemma first_absent_None (fields : list field) :
  first_absent fields = None <-> (forall f, In f fields -> field_payload f <> None).
Proof.
  induction fields as [|f rest IH]; simpl.
  - split; [intros _ f []|reflexivity].
  - destruct (field_payload f) eqn:Hf.
    + rewrite IH. split.
      * intros H g [<- | Hg]; [congruence|apply H, Hg].
      * intros H g Hg. apply H. right. exact Hg.
    + split; [discriminate|]. intros H. exfalso. apply (H f); auto.
Qed.

Lemma unwrapped_keys (fields : list field) :
  (forall f, In f fields -> field_payload f <> None) ->
  map fst (unwrapped fields) = map field_key fields.
Proof.
  induction fields as [|f rest IH]; [reflexivity|]. intros Hall.
  unfold unwrapped. simpl. destruct (field_payload f) eqn:Hf.
  - simpl. f_equal. apply IH. intros g Hg. apply Hall. right. exact Hg.
  - exfalso. apply (Hall f); [left; reflexivity|exact Hf].
Qed.

Lemma present_prefix_keys (fields : list field) (key : string) :
  In key (map fst (present_prefix fields)) -> In key (map field_key fields).
Proof.
  induction fields as [|f rest IH]; simpl; [tauto|].
  destruct (field_payload f); simpl; tauto.
Qed.

Lemma present_prefix_NoDup (fields : list field) :
  NoDup (map field_key fields) -> NoDup (map fst (present_prefix fields)).
Proof.
  induction fields as [|f rest IH]; simpl; [intros _; constructor|].
  intros Hnd. apply NoDup_cons in Hnd as [Hf Hnd].
  destruct (field_payload f); simpl; [|constructor].
  apply NoDup_cons. split; [|apply IH, Hnd].
  intros Hin. apply Hf. apply list_elem_of_In, present_prefix_keys, list_elem_of_In, Hin.
Qed.

Lemma lookup_prop_In (ps : list (string * val)) (key : string) (v : val) :
  NoDup (map fst ps) -> (lookup_prop key ps = Some v <-> In (key, v) ps).
Proof.
  induction ps as [|[k w] ps IH]; simpl; [intros _; split; [discriminate|tauto]|].
  intros Hnd. apply NoDup_cons in Hnd as [Hk Hnd].
  destruct (String.eqb k key) eqn:Hkey.
  - apply String.eqb_eq in Hkey. subst k. split.
    + intros H. inversion H. auto.
    + intros [H | H]; [inversion H; reflexivity|].
      exfalso. apply Hk. apply list_elem_of_In. apply (in_map fst) in H. exact H.
  - rewrite (IH Hnd). split; [auto|]. intros [H | H]; [|exact H].
    inversion H; subst. rewrite String.eqb_refl in Hkey. discriminate.
Qed.

(** *** What group returns *)

(** For a mapping none of whose keys is [__proto__]: [group] is the Absent
    of the first Absent field if there is one, and otherwise a Present of a
    record that binds each key of the mapping, in the same order, to the
    payload of its Optional. *)
Lemma group_without_proto_key (h : heap) (pl : loc) (fields : list field) :
  is_mapping h pl fields ->
  ~ In "__proto__" (map field_key fields) ->
  exists res hfin,
    group (VObject pl) h = (Return res, hfin) /\
    ((exists f, In f fields /\ field_payload f = None) ->
       exists e, res = VObject e /\ is_Empty hfin e) /\
    ((forall f, In f fields -> field_payload f <> None) ->
       returned hfin res (length h) /\
       hfin !! length h =
         Some (mkObject (ProtoBuiltin ObjectPrototype) false (unwrapped fields)) /\
       map fst (unwrapped fields) = map field_key fields).
Proof.
  intros Hmap Hno.
  destruct (group_run h pl fields Hmap Hno) as (res & hfin & Hrun & _ & Hrec & Hres).
  exists res, hfin. split; [exact Hrun|]. split.
  - intros (f & Hf & Habsent).
    destruct (first_absent fields) as [e|] eqn:Hfirst.
    + exists e. exact Hres.
    + exfalso. apply (proj1 (first_absent_None fields) Hfirst f Hf Habsent).
  - intros Hall. apply first_absent_None in Hall as Hfirst.
    rewrite Hfirst in Hres. split; [exact Hres|].
    rewrite (present_prefix_all fields Hfirst) in Hrec.
    split; [exact Hrec|exact (unwrapped_keys fields Hall)].
Qed.

(** One Absent field makes the result Absent. *)
Lemma group_absent (h : heap) (pl : loc) (fields : list field) :
  is_mapping h pl fields ->
  ~ In "__proto__" (map field_key fields) ->
  (exists f, In f fields /\ field_payload f = None) ->
  exists e hfin, group (VObject pl) h = (Return (VObject e), hfin) /\ is_Empty hfin e.
Proof.
  intros Hmap Hno (f & Hf & Habsent).
  destruct (group_run h pl fields Hmap Hno) as (res & hfin & Hrun & _ & _ & Hres).
  destruct (first_absent fields) as [e|] eqn:Hfirst.
  - destruct Hres as [-> He]. exists e, hfin. split; assumption.
  - exfalso. apply (proj1 (first_absent_None fields) Hfirst f Hf Habsent).
Qed.

(** *** Worked heaps *)

Lemma example_heap_closed : heap_closed example_heap.
Proof.
  intros l o Hl.
  do 9 (destruct l as [|l]; [inversion Hl; subst o; simpl; split;
    [discriminate|intros k l' Hin;
       repeat (destruct Hin as [Hin|Hin]; [inversion Hin; subst; simpl; lia|]);
       contradiction]|]).
  discriminate.
Qed.

Lemma example_mapping_ab :
  is_mapping example_heap 3
    [mkField "a" 1 (Some (VNumber 1)); mkField "b" 2 (Some (VNumber 2))].
Proof. solve_mapping. Qed.

Lemma example_mapping_a_absent :
  is_mapping example_heap 4 [mkField "a" 1 (Some (VNumber 1)); mkField "b" 0 None].
Proof. solve_mapping. Qed.

Lemma example_mapping_proto :
  is_mapping example_heap 5 [mkField "__proto__" 1 (Some (VNumber 1))].
Proof. solve_mapping. Qed.

Lemma example_mapping_none : is_mapping example_heap 6 [].
Proof. solve_mapping. Qed.

Lemma example_mapping_proto_object :
  is_mapping example_heap 8
    [mkField "__proto__" 7 (Some (VObject 2)); mkField "a" 1 (Some (VNumber 1))].
Proof. solve_mapping. Qed.

(** C1: [group] is Absent when a field is Absent, and for Present fields
    it is a Present of a record with the mapping's keys bound to the
    payloads.  The code misses one key: on [{["__proto__"]: some(1)}] every
    field is Present, yet the record returned has no key at all, because
    [Object.assign] stores through the inherited [__proto__] accessor.  When
    the payload is an object, as in [{["__proto__"]: some(some(2)), a:
    some(1)}], it becomes the record's prototype instead of a field. *)
Theorem group_drops_proto_key :
  (is_mapping example_heap 5 [mkField "__proto__" 1 (Some (VNumber 1))] /\
   exists hfin,
     group (VObject 5) example_heap = (Return (VObject 12), hfin) /\
     is_Some hfin 12 (VObject 9) /\
     hfin !! 9 = Some (mkObject (ProtoBuiltin ObjectPrototype) false [])) /\
  (is_mapping example_heap 8
     [mkField "__proto__" 7 (Some (VObject 2)); mkField "a" 1 (Some (VNumber 1))] /\
   exists hfin,
     group (VObject 8) example_heap = (Return (VObject 14), hfin) /\
     is_Some hfin 14 (VObject 9) /\
     hfin !! 9 = Some (mkObject (ProtoRef 2) false [("a", VNumber 1)])).
Proof.
  split.
  - split; [exact example_mapping_proto|].
    eexists. split; [vm_compute; reflexivity|]. split; reflexivity.
  - split; [exact example_mapping_proto_object|].
    eexists. split; [vm_compute; reflexivity|]. split; reflexivity.
Qed.

(** *** The record while the fold runs *)

(** On [{a: some(1), b: empty}] the field [a] is assigned onto the record
    before [b] is seen, and the result is the Absent of [b]. *)
Lemma group_assigns_onto_discarded :
  heap_closed example_heap /\
  is_mapping example_heap 4 [mkField "a" 1 (Some (VNumber 1)); mkField "b" 0 None] /\
  ~ assigns_only_onto_returned example_heap (VObject 4).
Proof.
  split; [exact example_heap_closed|]. split; [exact example_mapping_a_absent|].
  intros Hclaim.
  destruct (Hclaim (VObject 0) (snd (group (VObject 4) example_heap))
              ltac:(vm_compute; reflexivity) "a" (VNumber 1))
    as (a & Ha & Hsome).
  - eexists. split; reflexivity.
  - inversion Ha; subst a. discriminate Hsome.
Qed.

(** C2, amended: for a mapping with no key [__proto__], a field's payload
    is assigned onto the accumulator record exactly when that field and
    every field before it in key order is Present.  If no field is Absent
    the record is returned; otherwise the result is the first Absent field's
    Optional and the record, with the fields assigned before it, is
    discarded. *)
Theorem group_assigns_present_prefix (h : heap) (pl : loc) (fields : list field) :
  is_mapping h pl fields ->
  ~ In "__proto__" (map field_key fields) ->
  exists res hfin,
    group (VObject pl) h = (Return res, hfin) /\
    (forall key v, assigned_onto hfin (length h) key v <->
       In (key, v) (present_prefix fields)) /\
    (first_absent fields = None -> returned hfin res (length h)) /\
    (forall e, first_absent fields = Some e ->
       res = VObject e /\ is_Empty hfin e /\ ~ returned hfin res (length h)).
Proof.
  intros Hmap Hno.
  destruct (group_run h pl fields Hmap Hno) as (res & hfin & Hrun & _ & Hrec & Hres).
  destruct Hmap as (_ & Hnd & _).
  exists res, hfin. split; [exact Hrun|]. split; [|split].
  - intros key v. split.
    + intros (o & Ho & Hlook). rewrite Hrec in Ho.
      inversion Ho; subst o. cbn [obj_props] in Hlook.
      apply lookup_prop_In in Hlook; [exact Hlook|apply present_prefix_NoDup, Hnd].
    + intros Hin. eexists. split; [exact Hrec|]. cbn [obj_props].
      apply lookup_prop_In; [apply present_prefix_NoDup, Hnd|exact Hin].
  - intros Hnone. rewrite Hnone in Hres. exact Hres.
  - intros e He. rewrite He in Hres. destruct Hres as [-> Hempty].
    split; [reflexivity|]. split; [exact Hempty|].
    intros (a & Ha & Hsome). inversion Ha; subst a.
    unfold is_Some, is_Empty in *. rewrite Hempty in Hsome. discriminate.
Qed.

Lemma group_assigns_present_prefix_witness :
  exists res hfin,
    group (VObject 4) example_heap = (Return res, hfin) /\
    (forall key v, assigned_onto hfin (length example_heap) key v <->
       In (key, v)
         (present_prefix [mkField "a" 1 (Some (VNumber 1)); mkField "b" 0 None])) /\
    (first_absent [mkField "a" 1 (Some (VNumber 1)); mkField "b" 0 None] = None ->
       returned hfin res (length example_heap)) /\
    (forall e,
       first_absent [mkField "a" 1 (Some (VNumber 1)); mkField "b" 0 None] = Some e ->
       res = VObject e /\ is_Empty hfin e /\ ~ returned hfin res (length example_heap)).
Proof.
  apply (group_assigns_present_prefix example_heap 4
           [mkField "a" 1 (Some (VNumber 1)); mkField "b" 0 None]
           example_mapping_a_absent).
  simpl. intros [H | [H | []]]; discriminate H.
Defined.

(** C9: [group({})] is a Present whose payload is the empty record. *)
Theorem group_empty_mapping (h : heap) (pl : loc) (po : object) :
  h !! pl = Some po -> obj_props po = [] ->
  group (VObject pl) h =
    (Return (VObject (S (length h))),
     h ++ [empty_literal; Some_instance (VObject (length h))]) /\
  is_Some (h ++ [empty_literal; Some_instance (VObject (length h))])
    (S (length h)) (VObject (length h)) /\
  (h ++ [empty_literal; Some_instance (VObject (length h))]) !! length h =
    Some (mkObject (ProtoBuiltin ObjectPrototype) false []).
Proof.
  intros Hpl Hprops.
  assert (Hcons : forall (x y : object), h ++ [x; y] = (h ++ [x]) ++ [y])
    by (intros; rewrite <- app_assoc; reflexivity).
  split; [|split].
  - rewrite group_unfold. unfold bind, alloc, Object_keys, some, alloc.
    rewrite (lookup_alloc_old h empty_literal pl po Hpl), Hprops. simpl.
    unfold ret. rewrite length_app, Hcons. simpl. repeat f_equal. lia.
  - unfold is_Some. rewrite Hcons.
    replace (S (length h)) with (length (h ++ [empty_literal]))
      by (rewrite length_app; simpl; lia).
    apply lookup_alloc_new.
  - rewrite Hcons. apply lookup_alloc_old, lookup_alloc_new.
Qed.

Lemma group_empty_mapping_witness :
  group (VObject 6) example_heap =
    (Return (VObject 10),
     example_heap ++ [empty_literal; Some_instance (VObject 9)]).
Proof.
  exact (proj1 (group_empty_mapping example_heap 6
                  (mkObject (ProtoBuiltin ObjectPrototype) false [])
                  eq_refl eq_refl)).
Defined.

(** ** Exceptions *)

Lemma returns_intro {A} (m : M A) (h : heap) (r : A) (h' : heap) :
  m h = (Return r, h') -> returns m h.
Proof. intros H. exists r, h'. exact H. Qed.

Lemma invoke_outcome (h : heap) (this : loc) (x y : variant) (c : call) :
  has_variant h this x -> call_ok h y c ->
  match callback_run h x y c with
  | Some (Throw e, h') => invoke (VObject this) c h = (Throw e, h')
  | _ => returns (invoke (VObject this) c) h
  end.
Proof.
  intros Hthis Hc. unfold returns. destruct x as [v|]; simpl in Hthis.
  - destruct c; simpl.
    + do 2 eexists; apply (isPresent_Some h this v Hthis).
    + do 2 eexists; apply (isEmpty_Some h this v Hthis).
    + rewrite (map_Some h this v Hthis). destruct (func v h) as [[r|e] h'];
        [do 2 eexists|]; reflexivity.
    + rewrite (chain_Some h this v Hthis). destruct (func v h) as [[r|e] h'];
        [do 2 eexists|]; reflexivity.
    + rewrite (filter_Some h this v Hthis). destruct (func v h) as [[r|e] h'];
        [|reflexivity]. destruct (to_boolean r); do 2 eexists; reflexivity.
    + do 2 eexists; apply (getOrNull_Some h this v Hthis).
    + do 2 eexists; apply (getOrUndefined_Some h this v Hthis).
    + do 2 eexists; apply (getOrElse_Some h this v Hthis).
    + destruct Hc as (b & -> & Hb). destruct y as [w|]; simpl in Hb.
      * destruct compareFunc as [compare|].
        -- rewrite (isEqual_comparator h this b v w compare Hthis Hb).
           destruct (compare v w h) as [[r|e] h'];
             [do 2 eexists|]; reflexivity.
        -- do 2 eexists. apply (isEqual_strict h this b v w Hthis Hb).
      * assert (Hfalse : invoke_isEqual (VObject this) (VObject b) compareFunc h =
                  (Return (VBool false), h)).
        { rewrite (isEqual_Some_unfold h this v) by exact Hthis.
          unfold bind. rewrite (map_Empty h b Hb). apply (getOrElse_Empty h b Hb). }
        destruct compareFunc; do 2 eexists; exact Hfalse.
    + rewrite (ifPresent_Some h this v Hthis). destruct (func v h) as [[r|e] h'];
        [do 2 eexists|]; reflexivity.
    + do 2 eexists; apply (ifAbsent_Some h this v Hthis).
    + do 2 eexists; apply (backUp_Some h this v Hthis).
  - destruct c; simpl.
    + do 2 eexists; apply isPresent_Empty, Hthis.
    + do 2 eexists; apply isEmpty_Empty, Hthis.
    + do 2 eexists; apply map_Empty, Hthis.
    + do 2 eexists; apply chain_Empty, Hthis.
    + do 2 eexists; apply filter_Empty, Hthis.
    + do 2 eexists; apply getOrNull_Empty, Hthis.
    + do 2 eexists; apply getOrUndefined_Empty, Hthis.
    + do 2 eexists; apply getOrElse_Empty, Hthis.
    + destruct Hc as (b & -> & Hb).
      rewrite (isEqual_Empty_unfold h this (VObject b) compareFunc Hthis).
      destruct y as [w|]; simpl in Hb;
        [do 2 eexists; apply (isEmpty_Some h b w Hb)|do 2 eexists; apply isEmpty_Empty, Hb].
    + do 2 eexists; apply ifPresent_Empty, Hthis.
    + rewrite (ifAbsent_Empty h this Hthis). destruct (func h) as [[r|e] h'];
        [do 2 eexists|]; reflexivity.
    + do 2 eexists; apply backUp_Empty, Hthis.
Qed.

Lemma cleanOptional_returns (h : heap) (empty this : loc) (x : variant) :
  has_variant h this x -> returns (cleanOptional empty (VObject this)) h.
Proof.
  intros Hthis. unfold returns, cleanOptional, bind. destruct x as [v|]; simpl in Hthis.
  - rewrite (getOrUndefined_Some h this v Hthis). unfold fromNullable.
    destruct (strict_equals v VNull || strict_equals v VUndefined);
      do 2 eexists; reflexivity.
  - rewrite (getOrUndefined_Empty h this Hthis). do 2 eexists; reflexivity.
Qed.

(** C6: no constructor, combinator or instance operation raises an
    exception of its own.  [group] does: on the mapping
    [{["__proto__"]: some(f), name: some("A")}], where [f] is a function,
    the first step makes [f] the prototype of the accumulator record, and
    in the second [Object.assign] cannot set [name], which the record now
    inherits from [f] as a property that is not writable.  The call ends in
    a TypeError that no callback threw. *)
Theorem group_raises_TypeError :
  is_mapping function_heap 4
    [mkField "__proto__" 2 (Some (VObject 1)); mkField "name" 3 (Some (VString "A"))] /\
  typeof function_heap (VObject 1) = "function" /\
  exists hfin,
    group (VObject 4) function_heap = (Throw TypeError, hfin) /\
    hfin !! 5 = Some (mkObject (ProtoRef 1) false []).
Proof.
  split; [solve_mapping|]. split; [reflexivity|].
  eexists. split; [vm_compute; reflexivity|]. reflexivity.
Qed.

(** X24: [group] on such a mapping apart, the abstraction has no failure
    of its own.  An instance operation on either variant ends in an
    exception only when the one callback it runs does, and then with that
    very exception and the heap as the callback left it; otherwise it
    returns.  [some],
    [fromNullable], [emptyFunction], [cleanOptional] and
    [instanceOfOptional] take no callback and always return, and so does
    [group] on a mapping of Optionals with no key [__proto__]. *)
Theorem no_exception_of_its_own (h : heap) (empty this pl : loc) (x y : variant)
    (c : call) (fields : list field) (value : val) :
  has_variant h this x -> call_ok h y c ->
  is_mapping h pl fields -> ~ In "__proto__" (map field_key fields) ->
  match callback_run h x y c with
  | Some (Throw e, h') => invoke (VObject this) c h = (Throw e, h')
  | _ => returns (invoke (VObject this) c) h
  end /\
  returns (some value) h /\
  returns (fromNullable empty value) h /\
  returns (emptyFunction empty) h /\
  returns (cleanOptional empty (VObject this)) h /\
  returns (group (VObject pl)) h /\
  returns (instanceOfOptional value) h.
Proof.
  intros Hthis Hc Hmap Hno.
  split; [exact (invoke_outcome h this x y c Hthis Hc)|].
  split; [do 2 eexists; reflexivity|].
  split.
  { unfold returns, fromNullable.
    destruct (strict_equals value VNull || strict_equals value VUndefined);
      do 2 eexists; reflexivity. }
  split; [do 2 eexists; reflexivity|].
  split; [exact (cleanOptional_returns h empty this x Hthis)|].
  split.
  { destruct (group_run h pl fields Hmap Hno) as (res & hfin & Hrun & _).
    exists res, hfin. exact Hrun. }
  destruct (instanceOfOptional_answer h value) as (answer & Hrun & _).
  do 2 eexists. exact Hrun.
Qed.

(** Outside the signatures the runtime does raise: [isEqual(null)] calls a
    member of [null], [group(null)] asks for the keys of [null], and a
    mapping whose field is not an Optional has no [map] to call. *)
Lemma ill_typed_calls_throw :
  invoke_isEqual (VObject 1) VNull None example_heap = (Throw TypeError, example_heap) /\
  invoke_isEqual (VObject 0) VNull None example_heap = (Throw TypeError, example_heap) /\
  fst (group VNull example_heap) = Throw TypeError /\
  fst (group (VObject 1) example_heap) = Throw TypeError.
Proof. repeat split; reflexivity. Qed.

Lemma no_exception_of_its_own_witness :
  invoke (VObject 1) (CallMap (throwing (VString "boom"))) example_heap =
    (Throw (Thrown (VString "boom")), example_heap) /\
  returns (group (VObject 3)) example_heap.
Proof.
  assert (Hno : ~ In "__proto__"
            (map field_key
               [mkField "a" 1 (Some (VNumber 1)); mkField "b" 2 (Some (VNumber 2))])).
  { simpl. intros [H | [H | []]]; discriminate H. }
  pose proof (no_exception_of_its_own example_heap 0 1 3 (Present (VNumber 1)) Absent
                (CallMap (throwing (VString "boom")))
                [mkField "a" 1 (Some (VNumber 1)); mkField "b" 2 (Some (VNumber 2))]
                VNull eq_refl I example_mapping_ab Hno) as H.
  simpl in H. split; [exact (proj1 H)|].
  exact (proj1 (proj2 (proj2 (proj2 (proj2 (proj2 H)))))).
Defined.

(** ** The claims on worked heaps *)

Lemma isEqual_spec_witness :
  invoke_isEqual (VObject 3) (VObject 4) None two_records =
    (Return (VBool false), two_records ++ [Some_instance (VBool false)]) /\
  invoke_isEqual (VObject 0) (VObject 0) None two_records =
    (Return (VBool true), two_records).
Proof.
  destruct (isEqual_spec two_records 3 4 (VObject 4) None)
    as (_ & _ & Hstrict & _).
  destruct (isEqual_spec two_records 0 0 (VObject 0) None)
    as (_ & _ & _ & _ & _ & _ & Habsent).
  split.
  - exact (Hstrict (VObject 1) (VObject 2) eq_refl eq_refl).
  - exact (Habsent eq_refl eq_refl).
Defined.

Lemma instanceOfOptional_spec_witness :
  instanceOfOptional (VObject 1) example_heap = (Return (VBool true), example_heap) /\
  instanceOfOptional (VObject 1) foreign_heap = (Return (VBool true), foreign_heap) /\
  instanceOfOptional (VObject 2) foreign_heap = (Return (VBool false), foreign_heap) /\
  instanceOfOptional (VObject 3) foreign_heap = (Return (VBool false), foreign_heap) /\
  instanceOfOptional (VObject 4) foreign_heap = (Return (VBool false), foreign_heap) /\
  instanceOfOptional (VNumber 1) foreign_heap = (Return (VBool false), foreign_heap).
Proof.
  split; [|split; [|split; [|split; [|split]]]].
  - destruct (instanceOfOptional_spec example_heap (VObject 1))
      as (answer & Hrun & _ & Hinstance & _).
    rewrite Hrun, Hinstance; [reflexivity|].
    exists 1. split; [reflexivity|]. right. exists (VNumber 1). reflexivity.
  - destruct (instanceOfOptional_spec foreign_heap (VObject 1))
      as (answer & Hrun & _ & _ & Hforeign & _).
    rewrite Hrun, (Hforeign 1 _ eq_refl eq_refl eq_refl); [reflexivity|].
    repeat constructor; discriminate.
  - destruct (instanceOfOptional_spec foreign_heap (VObject 2))
      as (answer & Hrun & _ & _ & _ & Hfunction & _).
    rewrite Hrun, (Hfunction 2 _ eq_refl eq_refl eq_refl). reflexivity.
  - destruct (instanceOfOptional_spec foreign_heap (VObject 3))
      as (answer & Hrun & _ & _ & _ & _ & _ & _ & Hlacks).
    rewrite Hrun, (Hlacks "map"); [reflexivity|simpl; auto|].
    intros (l & Hl & Hin). inversion Hl; subst l. discriminate Hin.
  - destruct (instanceOfOptional_spec foreign_heap (VObject 4))
      as (answer & Hrun & _ & _ & _ & _ & _ & _ & Hlacks).
    rewrite Hrun, (Hlacks "backUp"); [reflexivity|simpl; tauto|].
    intros (l & Hl & Hin). inversion Hl; subst l. discriminate Hin.
  - destruct (instanceOfOptional_spec foreign_heap (VNumber 1))
      as (answer & Hrun & _ & _ & _ & _ & _ & Hprimitive & _).
    rewrite Hrun, Hprimitive; [reflexivity|discriminate].
Defined.

(** A function is an object, and the one at location 2 exposes the twelve
    operations; yet it is a ["function"] to [typeof], not an ["object"], and
    is turned away before its members are looked at. *)
Lemma instanceOfOptional_callable :
  typeof foreign_heap (VObject 2) = "function" /\
  ~ accepts_every_object_with_the_operations foreign_heap (VObject 2).
Proof.
  split; [reflexivity|]. intros Hclaim.
  assert (Hrun : instanceOfOptional (VObject 2) foreign_heap =
            (Return (VBool true), foreign_heap)).
  { apply Hclaim.
    - do 2 eexists. split; reflexivity.
    - repeat constructor; (exists 2; split; reflexivity). }
  discriminate Hrun.
Qed.

Lemma fromNullable_spec_witness :
  fromNullable 0 VNull example_heap = (Return (VObject 0), example_heap) /\
  fromNullable 0 (VNumber 0) example_heap =
    (Return (VObject 9), example_heap ++ [Some_instance (VNumber 0)]).
Proof.
  split.
  - exact (proj1 (fromNullable_spec 0 example_heap VNull eq_refl) (or_introl eq_refl)).
  - refine (proj1 (proj1 (proj2 (fromNullable_spec 0 example_heap (VNumber 0) eq_refl)) _)).
    intros [H | H]; discriminate H.
Defined.

Lemma filter_spec_witness :
  invoke_filter (VObject 1) is_one example_heap = (Return (VObject 1), example_heap) /\
  invoke_filter (VObject 2) is_one example_heap =
    (Return (VObject 9), example_heap ++ [Empty_instance]) /\
  invoke_filter (VObject 0) is_one example_heap = (Return (VObject 0), example_heap).
Proof.
  split; [|split].
  - destruct (filter_spec example_heap 1 (VNumber 1) is_one) as (Hsome & _).
    exact (proj1 (Hsome eq_refl (VBool true) example_heap eq_refl) eq_refl).
  - destruct (filter_spec example_heap 2 (VNumber 2) is_one) as (Hsome & _).
    exact (proj1 (proj2 (Hsome eq_refl (VBool false) example_heap eq_refl) eq_refl)).
  - destruct (filter_spec example_heap 0 VNull is_one) as (_ & Hempty & _).
    exact (Hempty eq_refl).
Defined.

Lemma backUp_spec_witness :
  invoke_backUp (VObject 1) (VObject 2) example_heap = (Return (VObject 1), example_heap) /\
  invoke_backUp (VObject 0) (VObject 2) example_heap = (Return (VObject 2), example_heap).
Proof.
  destruct (backUp_spec example_heap (VNumber 1) (VNumber 2)) as (Hsome & _ & Hempty & _).
  split.
  - exact (Hsome 1 (VObject 2) eq_refl).
  - exact (Hempty 0 (VObject 2) eq_refl).
Defined.

Lemma empty_absorbs_witness :
  apply_transforms (VObject 0)
    [Tmap (throwing VNull); Tfilter is_one; Tchain (throwing VNull)] example_heap =
    (Return (VObject 0), example_heap).
Proof.
  exact (proj2 (proj2 (proj2
    (empty_absorbs example_heap 0
       [Tmap (throwing VNull); Tfilter is_one; Tchain (throwing VNull)] eq_refl)))).
Defined.

(** * Further properties of the library *)

(** ** cleanOptional *)

(** X1: [cleanOptional] sends an Absent, and a Present of [null] or
    [undefined], to the shared [empty]; a Present of any other value gives
    a newly allocated Present of that value, never the argument itself. *)
Theorem cleanOptional_spec (h : heap) (empty this : loc) (x : variant) :
  is_Empty h empty -> has_variant h this x ->
  match x with
  | Present v =>
      if is_nullish v
      then cleanOptional empty (VObject this) h = (Return (VObject empty), h)
      else cleanOptional empty (VObject this) h =
             (Return (VObject (length h)), h ++ [Some_instance v]) /\
           length h <> this
  | Absent => cleanOptional empty (VObject this) h = (Return (VObject empty), h)
  end.
Proof.
  intros Hempty Hthis. unfold cleanOptional, bind. destruct x as [v|]; simpl in Hthis.
  - rewrite (getOrUndefined_Some h this v Hthis). unfold fromNullable, is_nullish.
    destruct (strict_equals v VNull || strict_equals v VUndefined); [reflexivity|].
    split; [reflexivity|]. apply is_Some_allocated in Hthis. lia.
  - rewrite (getOrUndefined_Empty h this Hthis). reflexivity.
Qed.

Lemma cleanOptional_spec_witness :
  cleanOptional 0 (VObject 1) edge_heap = (Return (VObject 0), edge_heap) /\
  cleanOptional 0 (VObject 3) edge_heap = (Return (VObject 0), edge_heap) /\
  cleanOptional 0 (VObject 2) edge_heap =
    (Return (VObject 5), edge_heap ++ [Some_instance VNaN]).
Proof.
  split; [|split].
  - exact (cleanOptional_spec edge_heap 0 1 (Present VNull) eq_refl eq_refl).
  - exact (cleanOptional_spec edge_heap 0 3 Absent eq_refl eq_refl).
  - exact (proj1 (cleanOptional_spec edge_heap 0 2 (Present VNaN) eq_refl eq_refl)).
Defined.

(** X2: what [cleanOptional] returns is an Optional that never holds [null]
    or [undefined], and cleaning it again gives the same variant. *)
Theorem cleanOptional_idempotent (h : heap) (empty this : loc) (x : variant) :
  is_Empty h empty -> has_variant h this x ->
  exists l h' x',
    cleanOptional empty (VObject this) h = (Return (VObject l), h') /\
    has_variant h' l x' /\
    (forall v, x' = Present v -> is_nullish v = false) /\
    exists l2 h2,
      cleanOptional empty (VObject l) h' = (Return (VObject l2), h2) /\
      has_variant h2 l2 x'.
Proof.
  intros Hempty Hthis.
  assert (Hagain : forall h1, is_Empty h1 empty ->
            cleanOptional empty (VObject empty) h1 = (Return (VObject empty), h1)).
  { intros h1 H1. unfold cleanOptional, bind.
    rewrite (getOrUndefined_Empty h1 empty H1). reflexivity. }
  assert (Hkeep : forall v h1 l, is_Some h1 l v -> is_nullish v = false ->
            cleanOptional empty (VObject l) h1 =
              (Return (VObject (length h1)), h1 ++ [Some_instance v])).
  { intros v h1 l Hl Hv. unfold cleanOptional, bind.
    rewrite (getOrUndefined_Some h1 l v Hl). unfold fromNullable.
    unfold is_nullish in Hv. rewrite Hv. reflexivity. }
  destruct x as [v|]; simpl in Hthis.
  - destruct (is_nullish v) eqn:Hv.
    + exists empty, h, Absent. split.
      * unfold cleanOptional, bind. rewrite (getOrUndefined_Some h this v Hthis).
        unfold fromNullable. unfold is_nullish in Hv. rewrite Hv. reflexivity.
      * split; [exact Hempty|]. split; [discriminate|].
        exists empty, h. split; [apply Hagain, Hempty|exact Hempty].
    + exists (length h), (h ++ [Some_instance v]), (Present v).
      split; [apply (Hkeep v h this Hthis Hv)|].
      split; [apply lookup_alloc_new|].
      split; [intros w Hw; inversion Hw; subst w; exact Hv|].
      exists (length (h ++ [Some_instance v])), ((h ++ [Some_instance v]) ++ [Some_instance v]).
      split; [apply (Hkeep v); [apply lookup_alloc_new|exact Hv]|].
      apply lookup_alloc_new.
  - exists empty, h, Absent. split.
    + unfold cleanOptional, bind. rewrite (getOrUndefined_Empty h this Hthis). reflexivity.
    + split; [exact Hempty|]. split; [discriminate|].
      exists empty, h. split; [apply Hagain, Hempty|exact Hempty].
Qed.

Lemma cleanOptional_idempotent_witness :
  exists l h' x',
    cleanOptional 0 (VObject 1) edge_heap = (Return (VObject l), h') /\
    has_variant h' l x' /\
    (forall v, x' = Present v -> is_nullish v = false) /\
    exists l2 h2,
      cleanOptional 0 (VObject l) h' = (Return (VObject l2), h2) /\
      has_variant h2 l2 x'.
Proof.
  exact (cleanOptional_idempotent edge_heap 0 1 (Present VNull) eq_refl eq_refl).
Defined.

(** ** map and chain *)

(** X3: the functor law for effect-free functions.  On a Present of [v],
    [map(f).map(g)] and [map(x => g(f(x)))] both end in a new Present of
    [g(f(v))], the first after allocating the intermediate Present of
    [f(v)]; on an Absent both return the receiver. *)
Theorem map_compose (h : heap) (this : loc) (x : variant) (f g : val -> val) :
  has_variant h this x ->
  match x with
  | Present v =>
      (let! m := invoke_map (VObject this) (pure_callback f) in
       invoke_map m (pure_callback g)) h =
        (Return (VObject (S (length h))),
         (h ++ [Some_instance (f v)]) ++ [Some_instance (g (f v))]) /\
      invoke_map (VObject this) (pure_callback (fun a => g (f a))) h =
        (Return (VObject (length h)), h ++ [Some_instance (g (f v))])
  | Absent =>
      (let! m := invoke_map (VObject this) (pure_callback f) in
       invoke_map m (pure_callback g)) h = (Return (VObject this), h) /\
      invoke_map (VObject this) (pure_callback (fun a => g (f a))) h =
        (Return (VObject this), h)
  end.
Proof.
  intros Hthis. destruct x as [v|]; simpl in Hthis; unfold bind.
  - split.
    + rewrite (map_Some h this v Hthis). unfold pure_callback at 1, ret.
      rewrite (map_Some _ (length h) (f v)) by apply lookup_alloc_new.
      unfold pure_callback, ret. rewrite length_app. simpl.
      repeat f_equal. lia.
    + rewrite (map_Some h this v Hthis). reflexivity.
  - split.
    + rewrite (map_Empty h this Hthis). apply (map_Empty h this Hthis).
    + apply (map_Empty h this Hthis).
Qed.

Lemma map_compose_witness :
  (let! m := invoke_map (VObject 1) (pure_callback double) in
   invoke_map m (pure_callback positive)) example_heap =
    (Return (VObject 10),
     (example_heap ++ [Some_instance (VNumber 2)]) ++ [Some_instance (VBool true)]).
Proof.
  exact (proj1 (map_compose example_heap 1 (Present (VNumber 1)) double positive eq_refl)).
Defined.

(** X4: [chain] is associative on every Optional, whatever the callbacks do:
    [o.chain(f).chain(g)] and [o.chain(x => f(x).chain(g))] are the same
    computation, effects and exceptions included. *)
Theorem chain_assoc (h : heap) (this : loc) (x : variant) (f g : callback) :
  has_variant h this x ->
  (let! m := invoke_chain (VObject this) f in invoke_chain m g) h =
  invoke_chain (VObject this) (fun a => let! m := f a in invoke_chain m g) h.
Proof.
  intros Hthis. destruct x as [v|]; simpl in Hthis; unfold bind at 1.
  - rewrite !(chain_Some h this v Hthis). reflexivity.
  - rewrite !(chain_Empty h this Hthis). reflexivity.
Qed.

Lemma chain_assoc_witness :
  (let! m := invoke_chain (VObject 7) ret in invoke_chain m (throwing VNull))
    example_heap =
  invoke_chain (VObject 7)
    (fun a => let! m := ret a in invoke_chain m (throwing VNull)) example_heap.
Proof. exact (chain_assoc example_heap 7 (Present (VObject 2)) ret (throwing VNull) eq_refl). Defined.

(** X5: the unit laws of [chain].  [some(v).chain(f)] is [f(v)] run after
    the allocation of the Present; [o.chain(some)] is a new Present of the
    same payload on a Present and the receiver on an Absent; and
    [chain(x => x)] on a Present that holds an Optional returns that very
    inner Optional.  [chain] hands back whatever the callback returns. *)
Theorem chain_unit (h : heap) (this : loc) (x : variant) (v : val) (f : callback) :
  has_variant h this x ->
  (let! o := some v in invoke_chain o f) h = f v (h ++ [Some_instance v]) /\
  invoke_chain (VObject this) some h =
    match x with
    | Present w => (Return (VObject (length h)), h ++ [Some_instance w])
    | Absent => (Return (VObject this), h)
    end /\
  invoke_chain (VObject this) ret h = (Return (payload_or x (VObject this)), h).
Proof.
  intros Hthis. split; [|split].
  - unfold bind, some, alloc.
    apply (chain_Some (h ++ [Some_instance v]) (length h) v), lookup_alloc_new.
  - destruct x as [w|]; simpl in Hthis.
    + rewrite (chain_Some h this w Hthis). reflexivity.
    + apply (chain_Empty h this Hthis).
  - destruct x as [w|]; simpl in Hthis.
    + rewrite (chain_Some h this w Hthis). reflexivity.
    + apply (chain_Empty h this Hthis).
Qed.

Lemma chain_unit_witness :
  invoke_chain (VObject 7) ret example_heap = (Return (VObject 2), example_heap).
Proof.
  exact (proj2 (proj2 (chain_unit example_heap 7 (Present (VObject 2)) VNull ret eq_refl))).
Defined.

(** X6: on every Optional [map(f)] is [chain(x => some(f(x)))]. *)
Theorem map_as_chain (h : heap) (this : loc) (x : variant) (f : callback) :
  has_variant h this x ->
  invoke_map (VObject this) f h =
  invoke_chain (VObject this) (fun a => let! r := f a in some r) h.
Proof.
  intros Hthis. destruct x as [v|]; simpl in Hthis.
  - rewrite (map_Some h this v Hthis), (chain_Some h this v Hthis).
    unfold bind. destruct (f v h) as [[r|e] h']; reflexivity.
  - rewrite (map_Empty h this Hthis), (chain_Empty h this Hthis). reflexivity.
Qed.

Lemma map_as_chain_witness :
  invoke_map (VObject 1) (pure_callback double) example_heap =
  invoke_chain (VObject 1) (fun a => let! r := pure_callback double a in some r)
    example_heap.
Proof. exact (map_as_chain example_heap 1 (Present (VNumber 1)) (pure_callback double) eq_refl). Defined.

(** ** The observers *)

(** X7: on every Optional [getOrNull()] is [getOrElse(null)] and
    [getOrUndefined()] is [getOrElse(undefined)]; [getOrElse(d)] is the
    payload of a Present, even when that payload is [null] or [undefined],
    and [d] on an Absent.  None of them touches the heap. *)
Theorem getters_agree (h : heap) (this : loc) (x : variant) (d : val) :
  has_variant h this x ->
  invoke_getOrElse (VObject this) d h = (Return (payload_or x d), h) /\
  invoke_getOrNull (VObject this) h = invoke_getOrElse (VObject this) VNull h /\
  invoke_getOrUndefined (VObject this) h = invoke_getOrElse (VObject this) VUndefined h.
Proof.
  intros Hthis. destruct x as [v|]; simpl in Hthis.
  - rewrite !(getOrElse_Some h this v Hthis).
    rewrite (getOrNull_Some h this v Hthis), (getOrUndefined_Some h this v Hthis).
    repeat split.
  - rewrite !(getOrElse_Empty h this Hthis).
    rewrite (getOrNull_Empty h this Hthis), (getOrUndefined_Empty h this Hthis).
    repeat split.
Qed.

Lemma getters_agree_witness :
  invoke_getOrElse (VObject 1) (VNumber 7) edge_heap = (Return VNull, edge_heap) /\
  invoke_getOrElse (VObject 3) (VNumber 7) edge_heap = (Return (VNumber 7), edge_heap).
Proof.
  split.
  - exact (proj1 (getters_agree edge_heap 1 (Present VNull) (VNumber 7) eq_refl)).
  - exact (proj1 (getters_agree edge_heap 3 Absent (VNumber 7) eq_refl)).
Defined.

(** X8: [isEmpty()] is the negation of [isPresent()], and of [ifPresent] and
    [ifAbsent] exactly one runs its callback: [ifPresent] on a Present, with
    the payload, [ifAbsent] on an Absent.  Both discard what the callback
    returns and return [undefined]. *)
Theorem branches_follow_presence (h : heap) (this : loc) (x : variant)
    (f : callback) (g : M val) :
  has_variant h this x ->
  invoke_isPresent (VObject this) h = (Return (VBool (is_present x)), h) /\
  invoke_isEmpty (VObject this) h = (Return (VBool (negb (is_present x))), h) /\
  invoke_ifPresent (VObject this) f h =
    match x with
    | Present v => (do! f v in ret VUndefined) h
    | Absent => (Return VUndefined, h)
    end /\
  invoke_ifAbsent (VObject this) g h =
    match x with
    | Present _ => (Return VUndefined, h)
    | Absent => (do! g in ret VUndefined) h
    end.
Proof.
  intros Hthis. destruct x as [v|]; simpl in Hthis; simpl.
  - rewrite (isPresent_Some h this v Hthis), (isEmpty_Some h this v Hthis).
    rewrite (ifPresent_Some h this v Hthis), (ifAbsent_Some h this v Hthis).
    unfold bind. repeat split.
  - rewrite (isPresent_Empty h this Hthis), (isEmpty_Empty h this Hthis).
    rewrite (ifPresent_Empty h this Hthis), (ifAbsent_Empty h this Hthis).
    unfold bind. repeat split.
Qed.

Lemma branches_follow_presence_witness :
  invoke_ifPresent (VObject 1) (throwing VNull) edge_heap =
    (Throw (Thrown VNull), edge_heap) /\
  invoke_ifAbsent (VObject 1) (throw TypeError) edge_heap = (Return VUndefined, edge_heap).
Proof.
  pose proof (branches_follow_presence edge_heap 1 (Present VNull)
                (throwing VNull) (throw TypeError) eq_refl) as (_ & _ & Hp & Ha).
  split; [exact Hp|exact Ha].
Defined.

(** ** backUp *)

(** X9: [backUp] is associative and picks the first Present: for Optionals
    [a] and [b] and any [c], [a.backUp(b).backUp(c)] and
    [a.backUp(b.backUp(c))] both return [a] if it is Present, else [b] if
    it is Present, else [c], by reference and without touching the heap. *)
Theorem backUp_assoc (h : heap) (a b : loc) (x y : variant) (c : val) :
  has_variant h a x -> has_variant h b y ->
  (let! ab := invoke_backUp (VObject a) (VObject b) in invoke_backUp ab c) h =
    (Return (if is_present x then VObject a
             else if is_present y then VObject b else c), h) /\
  (let! bc := invoke_backUp (VObject b) c in invoke_backUp (VObject a) bc) h =
    (Return (if is_present x then VObject a
             else if is_present y then VObject b else c), h).
Proof.
  intros Ha Hb. unfold bind.
  destruct x as [v|]; destruct y as [w|]; simpl in Ha, Hb; simpl.
  - rewrite (backUp_Some h a v Ha), (backUp_Some h b w Hb).
    rewrite !(backUp_Some h a v Ha). split; reflexivity.
  - rewrite (backUp_Some h a v Ha), (backUp_Empty h b Hb).
    rewrite !(backUp_Some h a v Ha). split; reflexivity.
  - rewrite (backUp_Empty h a Ha), !(backUp_Some h b w Hb).
    rewrite (backUp_Empty h a Ha). split; reflexivity.
  - rewrite (backUp_Empty h a Ha), !(backUp_Empty h b Hb).
    rewrite (backUp_Empty h a Ha). split; reflexivity.
Qed.

Lemma backUp_assoc_witness :
  (let! ab := invoke_backUp (VObject 3) (VObject 0) in
   invoke_backUp ab (VObject 2)) edge_heap = (Return (VObject 2), edge_heap).
Proof. exact (proj1 (backUp_assoc edge_heap 3 0 Absent Absent (VObject 2) eq_refl eq_refl)). Defined.

(** ** isEqual with the default comparison *)

Lemma strict_equals_sym (v w : val) : strict_equals v w = strict_equals w v.
Proof.
  destruct v, w; simpl; try reflexivity.
  - destruct b, b0; reflexivity.
  - apply Z.eqb_sym.
  - apply Z.eqb_sym.
  - apply String.eqb_sym.
  - apply Nat.eqb_sym.
  - apply Nat.eqb_sym.
Qed.

Lemma strict_equals_refl (v : val) : strict_equals v v = true <-> v <> VNaN.
Proof.
  destruct v; simpl; split; try discriminate; try reflexivity; try congruence; intros _.
  - destruct b; reflexivity.
  - apply Z.eqb_refl.
  - apply Z.eqb_refl.
  - apply String.eqb_refl.
  - apply Nat.eqb_refl.
  - apply Nat.eqb_refl.
Qed.

(** X10: without a comparator [isEqual] is symmetric on Optionals, heap
    effect included, and an Optional equals itself unless it is a Present
    of NaN. *)
Theorem isEqual_symmetric (h : heap) (a b : loc) (x y : variant) :
  has_variant h a x -> has_variant h b y ->
  invoke_isEqual (VObject a) (VObject b) None h =
    invoke_isEqual (VObject b) (VObject a) None h /\
  (exists h', invoke_isEqual (VObject a) (VObject a) None h =
     (Return (VBool match x with
                    | Present v => strict_equals v v
                    | Absent => true
                    end), h')) /\
  (forall v, strict_equals v v = true <-> v <> VNaN).
Proof.
  intros Ha Hb. split; [|split; [|exact strict_equals_refl]].
  - destruct x as [v|]; destruct y as [w|]; simpl in Ha, Hb.
    + rewrite (isEqual_strict h a b v w Ha Hb), (isEqual_strict h b a w v Hb Ha).
      rewrite (strict_equals_sym v w). reflexivity.
    + rewrite (isEqual_Some_unfold h a v) by exact Ha.
      rewrite (isEqual_Empty_unfold h b) by exact Hb.
      unfold bind. rewrite (map_Empty h b Hb), (getOrElse_Empty h b Hb).
      symmetry. apply (isEmpty_Some h a v Ha).
    + rewrite (isEqual_Some_unfold h b w) by exact Hb.
      rewrite (isEqual_Empty_unfold h a) by exact Ha.
      unfold bind. rewrite (map_Empty h a Ha), (getOrElse_Empty h a Ha).
      apply (isEmpty_Some h b w Hb).
    + rewrite (isEqual_Empty_unfold h a), (isEqual_Empty_unfold h b) by assumption.
      rewrite (isEmpty_Empty h a Ha), (isEmpty_Empty h b Hb). reflexivity.
  - destruct x as [v|]; simpl in Ha.
    + eexists. apply (isEqual_strict h a a v v Ha Ha).
    + exists h. rewrite (isEqual_Empty_unfold h a) by exact Ha.
      apply (isEmpty_Empty h a Ha).
Qed.

Lemma isEqual_symmetric_witness :
  invoke_isEqual (VObject 2) (VObject 3) None edge_heap =
    invoke_isEqual (VObject 3) (VObject 2) None edge_heap /\
  exists h', invoke_isEqual (VObject 2) (VObject 2) None edge_heap =
    (Return (VBool false), h').
Proof.
  pose proof (isEqual_symmetric edge_heap 2 3 (Present VNaN) Absent eq_refl eq_refl)
    as (Hsym & Hrefl & _).
  split; [exact Hsym|exact Hrefl].
Defined.

(** ** fromNullable and the extractors *)

(** X11: wrapping a value with [fromNullable] and extracting it again gives
    the value back, except that the two sentinels collapse: through
    [getOrUndefined] a [null] comes back as [undefined], through
    [getOrNull] an [undefined] comes back as [null]. *)
Theorem fromNullable_round_trip (h : heap) (empty : loc) (v : val) :
  is_Empty h empty ->
  (exists h', (let! o := fromNullable empty v in invoke_getOrUndefined o) h =
     (Return (if strict_equals v VNull then VUndefined else v), h')) /\
  (exists h', (let! o := fromNullable empty v in invoke_getOrNull o) h =
     (Return (if strict_equals v VUndefined then VNull else v), h')).
Proof.
  intros Hempty. unfold bind, fromNullable.
  destruct (strict_equals v VNull || strict_equals v VUndefined) eqn:Hv.
  - unfold ret.
    rewrite (getOrUndefined_Empty h empty Hempty), (getOrNull_Empty h empty Hempty).
    destruct v; try discriminate Hv; split; eexists; reflexivity.
  - unfold some, alloc.
    rewrite (getOrUndefined_Some _ (length h) v) by apply lookup_alloc_new.
    rewrite (getOrNull_Some _ (length h) v) by apply lookup_alloc_new.
    apply orb_false_elim in Hv as [Hn Hu]. rewrite Hn, Hu.
    split; eexists; reflexivity.
Qed.

Lemma fromNullable_round_trip_witness :
  (exists h', (let! o := fromNullable 0 VNull in invoke_getOrUndefined o) edge_heap =
     (Return VUndefined, h')) /\
  (exists h', (let! o := fromNullable 0 VNaN in invoke_getOrNull o) edge_heap =
     (Return VNaN, h')).
Proof.
  split.
  - exact (proj1 (fromNullable_round_trip edge_heap 0 VNull eq_refl)).
  - exact (proj2 (fromNullable_round_trip edge_heap 0 VNaN eq_refl)).
Defined.

(** ** filter *)

(** X12: two filters in a row.  With an effect-free first predicate [p],
    [o.filter(p).filter(q)] on a Present of [v] is [o.filter(q)] when
    [p(v)] is truthy, so the receiver itself survives when both hold; when
    [p(v)] is falsy it is a new Absent and [q] is not run.  On an Absent it
    is the receiver. *)
Theorem filter_twice (h : heap) (this : loc) (x : variant) (p : val -> val)
    (q : callback) :
  has_variant h this x ->
  (let! m := invoke_filter (VObject this) (pure_callback p) in invoke_filter m q) h =
    match x with
    | Present v =>
        if to_boolean (p v) then invoke_filter (VObject this) q h
        else (Return (VObject (length h)), h ++ [Empty_instance])
    | Absent => (Return (VObject this), h)
    end.
Proof.
  intros Hthis. unfold bind. destruct x as [v|]; simpl in Hthis.
  - rewrite (filter_Some h this v Hthis). unfold pure_callback at 1, ret.
    destruct (to_boolean (p v)); [reflexivity|].
    apply filter_Empty, lookup_alloc_new.
  - rewrite (filter_Empty h this Hthis). apply (filter_Empty h this Hthis).
Qed.

Lemma filter_twice_witness :
  (let! m := invoke_filter (VObject 2) (pure_callback positive) in
   invoke_filter m (throwing VNull)) example_heap =
    invoke_filter (VObject 2) (throwing VNull) example_heap /\
  (let! m := invoke_filter (VObject 1) (pure_callback (fun _ => VNumber 0)) in
   invoke_filter m (throwing VNull)) example_heap =
    (Return (VObject 9), example_heap ++ [Empty_instance]).
Proof.
  split.
  - exact (filter_twice example_heap 2 (Present (VNumber 2)) positive
             (throwing VNull) eq_refl).
  - exact (filter_twice example_heap 1 (Present (VNumber 1)) (fun _ => VNumber 0)
             (throwing VNull) eq_refl).
Defined.

(** ** Immutability *)

(** X13: no instance operation writes to an object that exists.  After a
    call on an Optional the heap is the one the callback left (the caller's
    own if no callback ran) followed by at most one new object, an instance
    of one of the two classes. *)
Theorem calls_only_allocate (h : heap) (this : loc) (x y : variant) (c : call) :
  has_variant h this x -> call_ok h y c ->
  exists extra,
    snd (invoke (VObject this) c h) = base_heap h x y c ++ extra /\
    length extra <= 1 /\
    Forall is_instance extra.
Proof.
  intros Hthis Hc. unfold base_heap.
  assert (Hnone : forall hb : heap,
            hb = hb ++ [] /\ length (@nil object) <= 1 /\ Forall is_instance []).
  { intros hb. rewrite app_nil_r. split; [reflexivity|]. split; [simpl; lia|constructor]. }
  assert (Hone : forall (hb : heap) o, is_instance o ->
            hb ++ [o] = hb ++ [o] /\ length [o] <= 1 /\ Forall is_instance [o]).
  { intros hb o Ho. split; [reflexivity|]. split; [simpl; lia|].
    constructor; [exact Ho|constructor]. }
  assert (Hsome : forall v, is_instance (Some_instance v)) by (intros v; right; eauto).
  assert (Hempty_i : is_instance Empty_instance) by (left; reflexivity).
  destruct x as [v|]; simpl in Hthis.
  - destruct c; simpl.
    + rewrite (isPresent_Some h this v Hthis). exists []. apply Hnone.
    + rewrite (isEmpty_Some h this v Hthis). exists []. apply Hnone.
    + rewrite (map_Some h this v Hthis). destruct (func v h) as [[r|e] h'].
      * eexists. apply Hone, Hsome.
      * exists []. apply Hnone.
    + rewrite (chain_Some h this v Hthis). destruct (func v h) as [[r|e] h'];
        exists []; apply Hnone.
    + rewrite (filter_Some h this v Hthis). destruct (func v h) as [[r|e] h'].
      * destruct (to_boolean r); [exists []; apply Hnone|eexists; apply Hone, Hempty_i].
      * exists []. apply Hnone.
    + rewrite (getOrNull_Some h this v Hthis). exists []. apply Hnone.
    + rewrite (getOrUndefined_Some h this v Hthis). exists []. apply Hnone.
    + rewrite (getOrElse_Some h this v Hthis). exists []. apply Hnone.
    + destruct Hc as (b & -> & Hb). destruct y as [w|]; simpl in Hb.
      * destruct compareFunc as [compare|].
        -- rewrite (isEqual_comparator h this b v w compare Hthis Hb).
           destruct (compare v w h) as [[r|e] h'].
           ++ eexists. apply Hone, Hsome.
           ++ exists []. apply Hnone.
        -- rewrite (isEqual_strict h this b v w Hthis Hb). eexists. apply Hone, Hsome.
      * assert (Hfalse : invoke_isEqual (VObject this) (VObject b) compareFunc h =
                  (Return (VBool false), h)).
        { rewrite (isEqual_Some_unfold h this v) by exact Hthis.
          unfold bind. rewrite (map_Empty h b Hb). apply (getOrElse_Empty h b Hb). }
        rewrite Hfalse. destruct compareFunc; exists []; apply Hnone.
    + rewrite (ifPresent_Some h this v Hthis). destruct (func v h) as [[r|e] h'];
        exists []; apply Hnone.
    + rewrite (ifAbsent_Some h this v Hthis). exists []. apply Hnone.
    + rewrite (backUp_Some h this v Hthis). exists []. apply Hnone.
  - destruct c; simpl.
    + rewrite (isPresent_Empty h this Hthis). exists []. apply Hnone.
    + rewrite (isEmpty_Empty h this Hthis). exists []. apply Hnone.
    + rewrite (map_Empty h this Hthis). exists []. apply Hnone.
    + rewrite (chain_Empty h this Hthis). exists []. apply Hnone.
    + rewrite (filter_Empty h this Hthis). exists []. apply Hnone.
    + rewrite (getOrNull_Empty h this Hthis). exists []. apply Hnone.
    + rewrite (getOrUndefined_Empty h this Hthis). exists []. apply Hnone.
    + rewrite (getOrElse_Empty h this Hthis). exists []. apply Hnone.
    + destruct Hc as (b & -> & Hb).
      rewrite (isEqual_Empty_unfold h this (VObject b) compareFunc Hthis).
      destruct y as [w|]; simpl in Hb;
        [rewrite (isEmpty_Some h b w Hb)|rewrite (isEmpty_Empty h b Hb)];
        exists []; apply Hnone.
    + rewrite (ifPresent_Empty h this Hthis). exists []. apply Hnone.
    + rewrite (ifAbsent_Empty h this Hthis). destruct (func h) as [[r|e] h'];
        exists []; apply Hnone.
    + rewrite (backUp_Empty h this Hthis). exists []. apply Hnone.
Qed.

Lemma calls_only_allocate_witness :
  exists extra,
    snd (invoke (VObject 1) (CallIsEqual (VObject 2) None) example_heap) =
      example_heap ++ extra /\
    length extra <= 1 /\ Forall is_instance extra.
Proof.
  exact (calls_only_allocate example_heap 1 (Present (VNumber 1)) (Present (VNumber 2))
           (CallIsEqual (VObject 2) None) eq_refl
           (ex_intro _ 2 (conj eq_refl eq_refl))).
Defined.

(** ** group, further *)

Lemma reduce_app {A} (f : A -> string -> M A) (ks1 ks2 : list string) (init : A)
    (h : heap) :
  reduce f (ks1 ++ ks2) init h =
    match reduce f ks1 init h with
    | (Return acc, h') => reduce f ks2 acc h'
    | (Throw e, h') => (Throw e, h')
    end.
Proof.
  revert init h. induction ks1 as [|k ks1 IH]; intros init h; simpl; [reflexivity|].
  unfold bind. destruct (f init k h) as [[acc|e] h']; [apply IH|reflexivity].
Qed.

Lemma lookup_prop_app_l (key : string) (v : val) (xs ys : list (string * val)) :
  lookup_prop key xs = Some v -> lookup_prop key (xs ++ ys) = Some v.
Proof.
  induction xs as [|[k w] xs IH]; simpl; [discriminate|].
  destruct (String.eqb k key); [auto|exact IH].
Qed.

Lemma first_absent_is_Empty (h : heap) (fields : list field) (e : loc) :
  Forall (field_ok h) fields -> first_absent fields = Some e -> is_Empty h e.
Proof.
  intros Hok. induction Hok as [|f rest Hf Hok IH]; [discriminate|].
  simpl. unfold field_ok in Hf.
  destruct (field_payload f); [exact IH|].
  intros He. inversion He; subst e. exact Hf.
Qed.

(** X14: [group] stops using the mapping at the first Absent field.  If
    the leading fields are Optionals under keys other than [__proto__] and
    one of them is Absent, the result is that field's own Optional, whatever
    the entries after those fields hold, values that are no Optionals
    included, and no object that existed is changed. *)
Theorem group_short_circuits (h : heap) (pl : loc) (fields : list field)
    (rest : list (string * val)) (e : loc) :
  is_mapping_then h pl fields rest ->
  ~ In "__proto__" (map field_key fields) ->
  first_absent fields = Some e ->
  exists hfin,
    group (VObject pl) h = (Return (VObject e), hfin) /\
    is_Empty hfin e /\
    (forall l, l < length h -> hfin !! l = h !! l).
Proof.
  intros ((po & Hpl & Hprops) & Hnd & Hok) Hno Hfirst.
  pose proof (lookup_lt_Some _ _ _ Hpl) as Hpl_lt.
  rewrite group_unfold. unfold bind, alloc, Object_keys, some, alloc.
  rewrite (lookup_alloc_old h empty_literal pl po Hpl).
  rewrite Hprops, map_app, map_map. cbn [field_entry fst].
  rewrite reduce_app.
  destruct (group_loop h pl po Hpl fields []
              ((h ++ [empty_literal]) ++ [Some_instance (VObject (length h))])
              (length (h ++ [empty_literal])))
    as (res & hfin & Hrun & Hold & _ & Hres).
  - intros f Hf. rewrite Hprops. apply lookup_prop_app_l, lookup_prop_field; assumption.
  - exact Hnd.
  - exact Hno.
  - exact Hok.
  - apply group_inv_start.
  - change (map (fun x : field => field_key x) fields) with (map field_key fields).
    rewrite Hrun. rewrite Hfirst in Hres. subst res.
    assert (He : is_Empty hfin e).
    { pose proof (first_absent_is_Empty h fields e Hok Hfirst) as He.
      unfold is_Empty. rewrite Hold by (apply (is_Empty_allocated h e He)). exact He. }
    exists hfin. split; [apply (reduce_stuck hfin pl e _ He)|].
    split; [exact He|exact Hold].
Qed.

Lemma edge_mapping : is_mapping_then edge_heap 4 [mkField "a" 3 None] [("b", VNumber 5)].
Proof. solve_mapping. Qed.

Lemma group_short_circuits_witness :
  exists hfin,
    group (VObject 4) edge_heap = (Return (VObject 3), hfin) /\
    is_Empty hfin 3 /\
    (forall l, l < length edge_heap -> hfin !! l = edge_heap !! l).
Proof.
  apply (group_short_circuits edge_heap 4 [mkField "a" 3 None] [("b", VNumber 5)] 3
           edge_mapping); [|reflexivity].
  simpl. intros [H | []]; discriminate H.
Defined.

(** X15: [group] on a mapping with no key [__proto__] changes no object
    that exists: the mapping is the same mapping afterwards and every
    Optional in it is as it was.  The record it builds is a new object,
    distinct from the mapping and from every object of the caller. *)
Theorem group_frame (h : heap) (pl : loc) (fields : list field) :
  is_mapping h pl fields ->
  ~ In "__proto__" (map field_key fields) ->
  exists res hfin,
    group (VObject pl) h = (Return res, hfin) /\
    (forall l, l < length h -> hfin !! l = h !! l) /\
    is_mapping hfin pl fields /\
    h !! length h = None /\
    (exists record, hfin !! length h = Some record) /\
    (first_absent fields = None -> returned hfin res (length h)).
Proof.
  intros Hmap Hno.
  destruct (group_run h pl fields Hmap Hno) as (res & hfin & Hrun & Hold & Hrec & Hres).
  exists res, hfin. split; [exact Hrun|]. split; [exact Hold|].
  split; [|split; [apply lookup_fresh|split; [eauto|]]].
  - destruct Hmap as ((po & Hpl & Hprops) & Hnd & Hok).
    split; [|split; [exact Hnd|]].
    + exists po. split; [|exact Hprops].
      rewrite Hold by (apply lookup_lt_Some in Hpl; exact Hpl). exact Hpl.
    + eapply Forall_impl; [exact Hok|]. intros f Hf. unfold field_ok in *.
      destruct (field_payload f).
      * unfold is_Some. rewrite Hold by (apply (is_Some_allocated _ _ _ Hf)). exact Hf.
      * unfold is_Empty. rewrite Hold by (apply (is_Empty_allocated _ _ Hf)). exact Hf.
  - intros Hnone. rewrite Hnone in Hres. exact Hres.
Qed.

Lemma group_frame_witness :
  exists res hfin,
    group (VObject 3) example_heap = (Return res, hfin) /\
    (forall l, l < length example_heap -> hfin !! l = example_heap !! l) /\
    is_mapping hfin 3
      [mkField "a" 1 (Some (VNumber 1)); mkField "b" 2 (Some (VNumber 2))] /\
    example_heap !! length example_heap = None /\
    (exists record, hfin !! length example_heap = Some record) /\
    (first_absent [mkField "a" 1 (Some (VNumber 1)); mkField "b" 2 (Some (VNumber 2))]
       = None -> returned hfin res (length example_heap)).
Proof.
  apply (group_frame example_heap 3
           [mkField "a" 1 (Some (VNumber 1)); mkField "b" 2 (Some (VNumber 2))]
           example_mapping_ab).
  simpl. intros [H | [H | []]]; discriminate H.
Defined.

(** X16: when every field is Present and no key is [__proto__], [group]
    returns a Present of a plain record whose own keys are the keys of the
    mapping, in the mapping's order, each bound to the payload of its
    Optional. *)
Theorem group_present_record (h : heap) (pl : loc) (fields : list field) :
  is_mapping h pl fields ->
  ~ In "__proto__" (map field_key fields) ->
  (forall f, In f fields -> field_payload f <> None) ->
  exists a hfin,
    group (VObject pl) h = (Return (VObject a), hfin) /\
    is_Some hfin a (VObject (length h)) /\
    hfin !! length h =
      Some (mkObject (ProtoBuiltin ObjectPrototype) false (unwrapped fields)) /\
    map fst (unwrapped fields) = map field_key fields /\
    (forall key v,
       lookup_prop key (unwrapped fields) = Some v <->
       exists f, In f fields /\ field_key f = key /\ field_payload f = Some v).
Proof.
  intros Hmap Hno Hall.
  destruct (group_run h pl fields Hmap Hno) as (res & hfin & Hrun & _ & Hrec & Hres).
  apply first_absent_None in Hall as Hfirst. rewrite Hfirst in Hres.
  destruct Hres as (a & -> & Ha).
  rewrite (present_prefix_all fields Hfirst) in Hrec.
  exists a, hfin. split; [exact Hrun|]. split; [exact Ha|]. split; [exact Hrec|].
  split; [exact (unwrapped_keys fields Hall)|].
  intros key v. destruct Hmap as (_ & Hnd & _).
  assert (Hnd' : NoDup (map fst (unwrapped fields))).
  { rewrite (unwrapped_keys fields Hall). exact Hnd. }
  rewrite (lookup_prop_In _ key v Hnd').
  unfold unwrapped. rewrite <- list_elem_of_In, list_elem_of_omap. split.
  - intros (f & Hf & Hpay). exists f. apply list_elem_of_In in Hf.
    destruct (field_payload f) as [w|]; [|discriminate].
    inversion Hpay; subst. auto.
  - intros (f & Hf & Hk & Hpay).
    exists f. split; [apply list_elem_of_In, Hf|]. rewrite Hpay, Hk. reflexivity.
Qed.

Lemma group_present_record_witness :
  exists a hfin,
    group (VObject 3) example_heap = (Return (VObject a), hfin) /\
    is_Some hfin a (VObject (length example_heap)) /\
    hfin !! length example_heap =
      Some (mkObject (ProtoBuiltin ObjectPrototype) false
              [("a", VNumber 1); ("b", VNumber 2)]).
Proof.
  destruct (group_present_record example_heap 3
              [mkField "a" 1 (Some (VNumber 1)); mkField "b" 2 (Some (VNumber 2))]
              example_mapping_ab)
    as (a & hfin & Hrun & Ha & Hrec & _).
  - simpl. intros [H | [H | []]]; discriminate H.
  - intros f [<- | [<- | []]]; discriminate.
  - exists a, hfin. split; [exact Hrun|]. split; [exact Ha|exact Hrec].
Defined.

(** X17: what [group] does with an argument that is no object.  Of [null]
    and [undefined] it asks the keys and fails with a TypeError, after the
    record was allocated; a boolean, number, bigint or symbol has no keys
    and gives a Present of the empty record. *)
Theorem group_of_primitive (h : heap) (v : val) :
  (v = VNull \/ v = VUndefined ->
     group v h = (Throw TypeError, h ++ [empty_literal])) /\
  (keyless_primitive v ->
     group v h =
       (Return (VObject (S (length h))),
        (h ++ [empty_literal]) ++ [Some_instance (VObject (length h))])).
Proof.
  split.
  - intros [-> | ->]; reflexivity.
  - intros Hv. destruct v; try contradiction;
      rewrite group_unfold; unfold bind, alloc, Object_keys, some, alloc; simpl;
      unfold ret; rewrite length_app; simpl; repeat f_equal; lia.
Qed.

Lemma group_of_primitive_witness :
  group VNull edge_heap = (Throw TypeError, edge_heap ++ [empty_literal]) /\
  group (VBool true) edge_heap =
    (Return (VObject 6), (edge_heap ++ [empty_literal]) ++ [Some_instance (VObject 5)]).
Proof.
  split.
  - exact (proj1 (group_of_primitive edge_heap VNull) (or_introl eq_refl)).
  - exact (proj2 (group_of_primitive edge_heap (VBool true)) I).
Defined.

(** ** The type guard on what the library makes *)





Lemma resolve_instance_member (h : heap) (fuel : nat) (l : loc) (x : variant)
    (field : string) :
  has_variant h l x -> In field optional_fields ->
  resolve h fuel l field <> Missing.
Proof.
  intros Hl Hfield. rewrite resolve_step.
  simpl in Hfield.
  destruct x as [v|]; simpl in Hl; rewrite Hl;
    repeat (destruct Hfield as [<- | Hfield]; [discriminate|]); contradiction.
Qed.

(** X19: members inherited along the prototype chain count.  An object
    that is not callable and whose prototype is an Optional is accepted by
    [instanceOfOptional], whatever its own properties are. *)
Theorem instanceOfOptional_inherits (h : heap) (l l' : loc) (o : object) (x : variant) :
  h !! l = Some o -> obj_callable o = false -> obj_proto o = ProtoRef l' ->
  has_variant h l' x ->
  instanceOfOptional (VObject l) h = (Return (VBool true), h).
Proof.
  intros Ho Hcall Hproto Hl'.
  destruct (instanceOfOptional_answer h (VObject l)) as (answer & Hrun & Hiff).
  rewrite Hrun. replace answer with true; [reflexivity|]. symmetry. apply Hiff.
  split; [simpl; rewrite Ho, Hcall; reflexivity|]. split; [discriminate|].
  apply Forall_forall. intros f Hf. apply list_elem_of_In in Hf.
  exists l. split; [reflexivity|].
  unfold has_property. rewrite resolve_step, Ho.
  destruct (lookup_prop f (obj_props o)); [reflexivity|].
  destruct (mem_string f (obj_locked o)); [reflexivity|]. rewrite Hproto.
  destruct (length h) as [|n] eqn:Hlen.
  { apply lookup_lt_Some in Ho. lia. }
  pose proof (resolve_instance_member h n l' x f Hl' Hf) as Hfound.
  destruct (resolve h n l' f); [reflexivity|reflexivity|reflexivity|contradiction].
Qed.

(** The record [group] returns for [{["__proto__"]: some(some(2)), a:
    some(1)}] is such an object. *)
Lemma instanceOfOptional_inherits_witness :
  instanceOfOptional (VObject 9) (snd (group (VObject 8) example_heap)) =
    (Return (VBool true), snd (group (VObject 8) example_heap)).
Proof.
  exact (instanceOfOptional_inherits (snd (group (VObject 8) example_heap)) 9 2
           (mkObject (ProtoRef 2) false [("a", VNumber 1)]) (Present (VNumber 2))
           eq_refl eq_refl eq_refl eq_refl).
Defined.

(** ** More compositions *)

(** X20: cleaning after a [map] is chaining through [fromNullable].  For an
    effect-free [f], [cleanOptional(o.map(f))] and
    [o.chain(x => fromNullable(f(x)))] on a Present of [v] both give the
    shared [empty] when [f(v)] is [null] or [undefined] and otherwise a new
    Present of [f(v)]; on an Absent the first gives the shared [empty] and
    the second the receiver. *)
Theorem clean_after_map (h : heap) (empty this : loc) (x : variant) (f : val -> val) :
  is_Empty h empty -> has_variant h this x ->
  exists l1 h1 l2 h2 x',
    (let! m := invoke_map (VObject this) (pure_callback f) in cleanOptional empty m) h =
      (Return (VObject l1), h1) /\
    invoke_chain (VObject this) (fun a => fromNullable empty (f a)) h =
      (Return (VObject l2), h2) /\
    has_variant h1 l1 x' /\ has_variant h2 l2 x' /\
    x' = match x with
         | Present v => if is_nullish (f v) then Absent else Present (f v)
         | Absent => Absent
         end /\
    (x' = Absent -> l1 = empty).
Proof.
  intros Hempty Hthis. unfold bind. destruct x as [v|]; simpl in Hthis.
  - rewrite (map_Some h this v Hthis), (chain_Some h this v Hthis).
    unfold pure_callback, ret, cleanOptional, bind.
    rewrite (getOrUndefined_Some _ (length h) (f v)) by apply lookup_alloc_new.
    unfold fromNullable, is_nullish.
    destruct (strict_equals (f v) VNull || strict_equals (f v) VUndefined).
    + exists empty, (h ++ [Some_instance (f v)]), empty, h, Absent.
      repeat split; try reflexivity; [apply is_Empty_alloc, Hempty|exact Hempty].
    + exists (length (h ++ [Some_instance (f v)])),
             ((h ++ [Some_instance (f v)]) ++ [Some_instance (f v)]),
             (length h), (h ++ [Some_instance (f v)]), (Present (f v)).
      repeat split; try reflexivity; try apply lookup_alloc_new. discriminate.
  - rewrite (map_Empty h this Hthis), (chain_Empty h this Hthis).
    unfold cleanOptional, bind. rewrite (getOrUndefined_Empty h this Hthis).
    exists empty, h, this, h, Absent.
    repeat split; try reflexivity; assumption.
Qed.

Lemma clean_after_map_witness :
  exists l1 h1 l2 h2 x',
    (let! m := invoke_map (VObject 2) (pure_callback (fun _ => VUndefined)) in
     cleanOptional 0 m) edge_heap = (Return (VObject l1), h1) /\
    invoke_chain (VObject 2) (fun a => fromNullable 0 VUndefined) edge_heap =
      (Return (VObject l2), h2) /\
    has_variant h1 l1 x' /\ has_variant h2 l2 x' /\
    x' = Absent /\
    (x' = Absent -> l1 = 0).
Proof.
  exact (clean_after_map edge_heap 0 2 (Present VNaN) (fun _ => VUndefined)
           eq_refl eq_refl).
Defined.

(** X21: [some] makes a new object each time.  Two calls with the same
    value return different references, which [===] tells apart, while
    [isEqual] compares the payloads: the two are equal unless the value is
    NaN. *)
Theorem some_is_new (h : heap) (v : val) :
  (let! a := some v in let! b := some v in ret (VBool (strict_equals a b))) h =
    (Return (VBool false), (h ++ [Some_instance v]) ++ [Some_instance v]) /\
  exists h',
    (let! a := some v in let! b := some v in invoke_isEqual a b None) h =
      (Return (VBool (strict_equals v v)), h').
Proof.
  split.
  - unfold bind, some, alloc, ret. simpl. rewrite length_app. simpl.
    replace (Nat.eqb (length h) (length h + 1)) with false; [reflexivity|].
    symmetry. apply Nat.eqb_neq. lia.
  - eexists. unfold bind, some, alloc.
    apply isEqual_strict; [apply is_Some_alloc|]; apply lookup_alloc_new.
Qed.

(** X22: a fallback through [backUp] is [getOrElse]:
    [o.backUp(some(d)).getOrNull()] returns what [o.getOrElse(d)] returns,
    the payload of a Present and [d] for an Absent. *)
Theorem backUp_as_getOrElse (h : heap) (this : loc) (x : variant) (d : val) :
  has_variant h this x ->
  (let! b := some d in
   let! r := invoke_backUp (VObject this) b in
   invoke_getOrNull r) h = (Return (payload_or x d), h ++ [Some_instance d]) /\
  invoke_getOrElse (VObject this) d h = (Return (payload_or x d), h).
Proof.
  intros Hthis. unfold bind, some, alloc. destruct x as [v|]; simpl in Hthis; simpl.
  - rewrite (backUp_Some _ this v) by (apply is_Some_alloc, Hthis).
    rewrite (getOrNull_Some _ this v) by (apply is_Some_alloc, Hthis).
    split; [reflexivity|apply (getOrElse_Some h this v Hthis)].
  - rewrite backUp_Empty by (apply is_Empty_alloc, Hthis).
    rewrite (getOrNull_Some _ (length h) d) by apply lookup_alloc_new.
    split; [reflexivity|apply (getOrElse_Empty h this Hthis)].
Qed.

Lemma backUp_as_getOrElse_witness :
  (let! b := some (VNumber 7) in
   let! r := invoke_backUp (VObject 3) b in
   invoke_getOrNull r) edge_heap =
    (Return (VNumber 7), edge_heap ++ [Some_instance (VNumber 7)]).
Proof. exact (proj1 (backUp_as_getOrElse edge_heap 3 Absent (VNumber 7) eq_refl)). Defined.

(** X23: how [isEqual] uses a comparator.  Between two Presents it runs the
    comparator once, on the receiver's payload and then the other's, and
    returns its result as it is, without turning it into a boolean; when
    either side is Absent the comparator is not run and the answer is the
    one given without a comparator. *)
Theorem isEqual_comparator_use (h : heap) (a b : loc) (x y : variant)
    (compare : comparator) :
  has_variant h a x -> has_variant h b y ->
  match x, y with
  | Present v, Present w =>
      invoke_isEqual (VObject a) (VObject b) (Some compare) h =
        match compare v w h with
        | (Return r, h') => (Return r, h' ++ [Some_instance r])
        | (Throw e, h') => (Throw e, h')
        end
  | _, _ =>
      invoke_isEqual (VObject a) (VObject b) (Some compare) h =
        invoke_isEqual (VObject a) (VObject b) None h
  end.
Proof.
  intros Ha Hb. destruct x as [v|]; destruct y as [w|]; simpl in Ha, Hb.
  - rewrite (isEqual_Some_unfold h a v) by exact Ha.
    unfold bind. rewrite (map_Some h b w Hb). simpl.
    destruct (compare v w h) as [[r|e] h']; [|reflexivity].
    apply getOrElse_Some. apply lookup_alloc_new.
  - rewrite !(isEqual_Some_unfold h a v) by exact Ha.
    unfold bind. rewrite !(map_Empty h b Hb). reflexivity.
  - rewrite !(isEqual_Empty_unfold h a) by exact Ha. reflexivity.
  - rewrite !(isEqual_Empty_unfold h a) by exact Ha. reflexivity.
Qed.

Lemma isEqual_comparator_use_witness :
  invoke_isEqual (VObject 1) (VObject 2) (Some (fun v w => ret (VNumber 3))) example_heap =
    (Return (VNumber 3), example_heap ++ [Some_instance (VNumber 3)]) /\
  invoke_isEqual (VObject 1) (VObject 0) (Some (fun v w => throw TypeError)) example_heap =
    invoke_isEqual (VObject 1) (VObject 0) None example_heap.
Proof.
  split.
  - exact (isEqual_comparator_use example_heap 1 2 (Present (VNumber 1))
             (Present (VNumber 2)) (fun v w => ret (VNumber 3)) eq_refl eq_refl).
  - exact (isEqual_comparator_use example_heap 1 0 (Present (VNumber 1)) Absent
             (fun v w => throw TypeError) eq_refl eq_refl).
Defined.
